(** * M-ary Huffman coding visualizer: the codec of [App.tsx]

    A shallow embedding of the algorithmic core of the application
    (frequency analysis, priority queue, M-ary tree construction with
    dummy padding, code assignment and the [encode] transform) together
    with the properties stated about it.

    Conventions of the embedding.
    - A JavaScript string is the list of its UTF-16 code units
      ([jsstring]); [for (const char of text)] iterates by code point,
      which [stringIterator] reproduces (a well-formed surrogate pair is
      one two-unit symbol).
    - JavaScript numbers that hold counts, sizes and indices are exact
      integers and are modelled by [Z]; the compression ratio is computed
      on binary64 floats ([PrimFloat]).
    - A [Map] is the list of its entries in insertion order.
    - [String.prototype.localeCompare] belongs to the host; it is a
      parameter of the development.
    - The React state written by [encode] (through [setFrequencies],
      [setHuffmanCodes], [setCompressionRatio], [setTreeRoot]) is threaded
      explicitly as an [AppState].
    - The [while] loop of [generateMaryTree] runs on fuel. *)

From Stdlib Require Import String Ascii.
From Stdlib Require Import ZArith List Lia Bool Permutation Sorted.
From Stdlib Require Import PrimFloat FloatOps SpecFloat Uint63.
Import ListNotations.

Local Open Scope Z_scope.

(** ** JavaScript strings *)

Definition jsstring := list Z.

(** A string literal of the source. *)
Definition lit (s : string) : jsstring :=
  map (fun a => Z.of_nat (nat_of_ascii a)) (list_ascii_of_string s).

Fixpoint str_eqb (a b : jsstring) : bool :=
  match a, b with
  | [], [] => true
  | x :: a', y :: b' => (x =? y) && str_eqb a' b'
  | _, _ => false
  end.

(** [s.startsWith(p)] *)
Fixpoint startsWith (s p : jsstring) {struct p} : bool :=
  match p, s with
  | [], _ => true
  | y :: p', x :: s' => (x =? y) && startsWith s' p'
  | _ :: _, [] => false
  end.

Definition isLeadSurrogate (u : Z) : bool := (55296 <=? u) && (u <=? 56319).
Definition isTrailSurrogate (u : Z) : bool := (56320 <=? u) && (u <=? 57343).

(** The string iterator behind [for (const char of text)]: one symbol per
    code point; a lead surrogate followed by a trail surrogate is a single
    symbol of two code units. *)
Fixpoint stringIterator (text : jsstring) : list jsstring :=
  match text with
  | [] => []
  | a :: rest =>
      match rest with
      | b :: rest' =>
          if isLeadSurrogate a && isTrailSurrogate b
          then [a; b] :: stringIterator rest'
          else [a] :: stringIterator rest
      | [] => [[a]]
      end
  end.

(** [Number.prototype.toString] on a non-negative integer: its decimal
    digits. *)
Fixpoint toDigits (fuel : nat) (n : Z) (acc : jsstring) : jsstring :=
  match fuel with
  | O => acc
  | S fuel' =>
      let acc' := (48 + n mod 10) :: acc in
      if n <? 10 then acc' else toDigits fuel' (n / 10) acc'
  end.

Definition toString (n : Z) : jsstring :=
  toDigits (S (Z.to_nat (Z.log2 n))) n [].

(** ** Map *)

Section JsMap.
Context {V : Type}.

Definition jsMap := list (jsstring * V).

Fixpoint get (k : jsstring) (m : jsMap) : option V :=
  match m with
  | [] => None
  | (k', v) :: m' => if str_eqb k' k then Some v else get k m'
  end.

(** [Map.prototype.set]: an existing key keeps its position, a new key
    goes last. *)
Fixpoint set (k : jsstring) (v : V) (m : jsMap) : jsMap :=
  match m with
  | [] => [(k, v)]
  | (k', v') :: m' =>
      if str_eqb k' k then (k', v) :: m' else (k', v') :: set k v m'
  end.

Definition keys (m : jsMap) : list jsstring := map fst m.

(** A run of [set] calls, in order. *)
Definition setAll (l : list (jsstring * V)) (m : jsMap) : jsMap :=
  fold_left (fun m e => set (fst e) (snd e) m) l m.
End JsMap.

Arguments jsMap : clear implicits.

(** ** Tree nodes and the priority queue *)

#[warnings="-register-all"]
Inductive HuffmanTreeNode : Type :=
  Node { data : jsstring; freq : Z; children : list HuffmanTreeNode }.

(** The two copies of the program differ in the name given to a dummy
    node: [`dummy${i}`] in [src/App.tsx], [`z${i}`] in the later copy. *)
Variant SourceFile := AppTsx | Part000.

Definition dummyPrefix (src : SourceFile) : jsstring :=
  match src with
  | AppTsx => lit "dummy"
  | Part000 => lit "z"
  end.

Definition dummyName (src : SourceFile) (i : Z) : jsstring :=
  dummyPrefix src ++ toString i.

(** Reference comparator used in the evaluated examples: order by code
    units.  It agrees with [localeCompare] on ASCII lower-case letters and
    on the names ["internal"], ["dummy0"], ... among themselves. *)
Fixpoint codeUnitCompare (a b : jsstring) : Z :=
  match a, b with
  | [], [] => 0
  | [], _ :: _ => -1
  | _ :: _, [] => 1
  | x :: a', y :: b' =>
      if x <? y then -1 else if y <? x then 1 else codeUnitCompare a' b'
  end.

Section PriorityQueue.
Variable localeCompare : jsstring -> jsstring -> Z.

(** The comparator handed to [Array.prototype.sort]. *)
Definition compareNodes (a b : HuffmanTreeNode) : Z :=
  if negb (freq a =? freq b) then freq a - freq b
  else localeCompare (data a) (data b).

(** [Array.prototype.sort] is stable: an element goes after every element
    that does not compare greater than it. *)
Fixpoint insertSorted (x : HuffmanTreeNode) (l : list HuffmanTreeNode)
  : list HuffmanTreeNode :=
  match l with
  | [] => [x]
  | y :: l' =>
      if compareNodes x y <? 0 then x :: l else y :: insertSorted x l'
  end.

Definition sort (nodes : list HuffmanTreeNode) : list HuffmanTreeNode :=
  fold_left (fun acc x => insertSorted x acc) nodes [].

Definition enqueue (node : HuffmanTreeNode) (nodes : list HuffmanTreeNode)
  : list HuffmanTreeNode :=
  sort (nodes ++ [node]).

(** [Array.prototype.shift]: [undefined] on an empty array. *)
Definition dequeue (nodes : list HuffmanTreeNode)
  : option HuffmanTreeNode * list HuffmanTreeNode :=
  match nodes with
  | [] => (None, [])
  | x :: rest => (Some x, rest)
  end.

Definition size (nodes : list HuffmanTreeNode) : Z :=
  Z.of_nat (length nodes).
End PriorityQueue.

(** ** Padding *)

(** [%] is the truncating remainder.  For [m = 1] JavaScript yields [NaN];
    the model is meant for [m - 1 <> 0]. *)
Definition calculateRequiredDummies (symbolCount m : Z) : Z :=
  let remainder := Z.rem (symbolCount - 1) (m - 1) in
  if remainder =? 0 then 0 else m - 1 - remainder.

(** ** Tree construction *)

Section TreeBuilder.
Variable localeCompare : jsstring -> jsstring -> Z.
Variable src : SourceFile.


(** [for (const [char, freq] of frequencies.entries()) pq.enqueue(...)] *)
Definition enqueueLeaves (frequencies : jsMap Z)
  (pq : list HuffmanTreeNode) : list HuffmanTreeNode :=
  fold_left
    (fun pq e => enqueue localeCompare (Node (fst e) (snd e) []) pq)
    frequencies pq.

(** [for (let i = 0; i < dummiesNeeded; i++) pq.enqueue(dummy i)], with
    [count] iterations left and loop variable [i]. *)
Fixpoint enqueueDummies (count : nat) (i : Z) (pq : list HuffmanTreeNode)
  : list HuffmanTreeNode :=
  match count with
  | O => pq
  | S count' =>
      enqueueDummies count' (i + 1)
        (enqueue localeCompare (Node (dummyName src i) 0 []) pq)
  end.

(** The inner [for] loop of a merge step: dequeue [count] nodes, pushing
    each onto the children of the new node and adding up the weights. *)
Fixpoint takeChildren (count : nat) (kids : list HuffmanTreeNode)
  (totalFreq : Z) (pq : list HuffmanTreeNode)
  : list HuffmanTreeNode * Z * list HuffmanTreeNode :=
  match count with
  | O => (kids, totalFreq, pq)
  | S count' =>
      match dequeue pq with
      | (Some child, pq') =>
          takeChildren count' (kids ++ [child]) (totalFreq + freq child) pq'
      | (None, pq') => takeChildren count' kids totalFreq pq'
      end
  end.

(** One iteration of [while (pq.size > 1)]. *)
Definition mergeStep (m : Z) (pq : list HuffmanTreeNode)
  : list HuffmanTreeNode :=
  let numNodes := Z.min m (size pq) in
  let '(kids, totalFreq, pq') := takeChildren (Z.to_nat numNodes) [] 0 pq in
  enqueue localeCompare (Node (lit "internal") totalFreq kids) pq'.

(** The [while] loop; [None] when the fuel runs out before the queue is
    down to one node. *)
Fixpoint mergeLoop (fuel : nat) (m : Z) (pq : list HuffmanTreeNode)
  : option (list HuffmanTreeNode) :=
  match fuel with
  | O => None
  | S fuel' =>
      if 1 <? size pq then mergeLoop fuel' m (mergeStep m pq) else Some pq
  end.

(** The queue on which the [while] loop starts, for a frequency table of
    two or more symbols. *)
Definition paddedQueue (frequencies : jsMap Z) (m : Z)
  : list HuffmanTreeNode :=
  let pq := enqueueLeaves frequencies [] in
  let dummiesNeeded := calculateRequiredDummies (size pq) m in
  enqueueDummies (Z.to_nat dummiesNeeded) 0 pq.

(** [generateMaryTree]: [None] is fuel exhaustion, [Some None] is the
    [null] result. *)
Definition generateMaryTree (fuel : nat) (frequencies : jsMap Z) (m : Z)
  : option (option HuffmanTreeNode) :=
  let pq := enqueueLeaves frequencies [] in
  if size pq =? 0 then Some None
  else if size pq =? 1 then Some (fst (dequeue pq))
  else
    match mergeLoop fuel m (paddedQueue frequencies m) with
    | None => None
    | Some pq' => Some (fst (dequeue pq'))
    end.
End TreeBuilder.

(** ** Code assignment *)

Definition isSymbolNode (d : jsstring) : bool :=
  negb (str_eqb d (lit "internal")) && negb (startsWith d (lit "dummy")).

(** [currentCode || "0"] *)
Definition orZeroCode (currentCode : jsstring) : jsstring :=
  match currentCode with
  | [] => lit "0"
  | _ => currentCode
  end.

(** [generateCodes] on a non-null node; the map is mutated in place, so it
    is threaded through the [forEach]. *)
Fixpoint generateCodes (node : HuffmanTreeNode) (currentCode : jsstring)
  (codes : jsMap jsstring) : jsMap jsstring :=
  match node with
  | Node d _ kids =>
      if isSymbolNode d then set d (orZeroCode currentCode) codes
      else
        (fix forEach (l : list HuffmanTreeNode) (index : Z)
             (codes : jsMap jsstring) : jsMap jsstring :=
           match l with
           | [] => codes
           | child :: l' =>
               forEach l' (index + 1)
                 (generateCodes child (currentCode ++ toString index) codes)
           end) kids 0 codes
  end.

(** [generateCodes] with its [if (!node) return] guard. *)
Definition generateCodesFrom (root : option HuffmanTreeNode)
  (currentCode : jsstring) (codes : jsMap jsstring) : jsMap jsstring :=
  match root with
  | None => codes
  | Some node => generateCodes node currentCode codes
  end.

(** ** Frequencies, statistics and [encode] *)

(** [freq.get(char) || 0] *)
Definition orZero (v : option Z) : Z :=
  match v with
  | Some n => if n =? 0 then 0 else n
  | None => 0
  end.

Definition calculateFrequencies (text : jsstring) : jsMap Z :=
  fold_left
    (fun freq char => set char (orZero (get char freq) + 1) freq)
    (stringIterator text) [].

(** The number held by a JavaScript variable whose value is the integer
    [z] (exact below 2^53). *)
Definition toFloat (z : Z) : float := PrimFloat.of_uint63 (Uint63.of_Z z).

(** [x.toFixed(2)] followed by [Number(...)]: the decimal with two
    fractional digits nearest to the double [x], the larger one on a tie,
    given in hundredths; [None] when [x] is not finite. *)
Definition toFixed2 (x : float) : option Z :=
  match Prim2SF x with
  | S754_zero _ => Some 0
  | S754_finite sign mant e =>
      let n :=
        if 0 <=? e then Z.pos mant * 2 ^ e * 100
        else (200 * Z.pos mant + 2 ^ (- e)) / 2 ^ (1 - e) in
      Some (if sign then - n else n)
  | _ => None
  end.

(** [((originalBits - compressedBits) / originalBits) * 100], rounded by
    [toFixed(2)]. *)
Definition ratioOf (originalBits compressedBits : Z) : option Z :=
  toFixed2
    (PrimFloat.mul
       (PrimFloat.div
          (PrimFloat.sub (toFloat originalBits) (toFloat compressedBits))
          (toFloat originalBits))
       (toFloat 100)).

(** The component state that [encode] and its effect write. *)
Record AppState : Type := {
  encodedText : jsstring;
  compressionRatio : option Z;
  huffmanCodes : jsMap jsstring;
  frequencies : jsMap Z;
  treeRoot : option HuffmanTreeNode
}.

(** The [useState] defaults. *)
Definition initialState : AppState :=
  {| encodedText := [];
     compressionRatio := Some 0;
     huffmanCodes := [];
     frequencies := [];
     treeRoot := None |}.

(** The body [const code = codes.get(char); if (code) encoded += code;]:
    an absent code, like an empty one, is falsy. *)
Definition appendCode (codes : jsMap jsstring) (encoded char : jsstring)
  : jsstring :=
  match get char codes with
  | Some ((_ :: _) as code) => encoded ++ code
  | _ => encoded
  end.

(** The loop [for (const char of text) { ... }] that builds [encoded]. *)
Definition concatCodes (codes : jsMap jsstring) (text : jsstring) : jsstring :=
  fold_left (appendCode codes) (stringIterator text) [].

Section Codec.
Variable localeCompare : jsstring -> jsstring -> Z.
Variable src : SourceFile.

(** [encode]: the new state and the returned string; [None] when the
    tree loop does not finish within the fuel. *)
Definition encode (fuel : nat) (st : AppState) (text : jsstring) (m : Z)
  : option (AppState * jsstring) :=
  match text with
  | [] => Some (st, [])
  | _ :: _ =>
      let freq := calculateFrequencies text in
      match generateMaryTree localeCompare src fuel freq m with
      | None => None
      | Some root =>
          let codes := generateCodesFrom root [] [] in
          let encoded := concatCodes codes text in
          let originalBits := Z.of_nat (length text) * 8 in
          let compressedBits := Z.of_nat (length encoded) in
          Some ({| encodedText := encodedText st;
                   compressionRatio := ratioOf originalBits compressedBits;
                   huffmanCodes := codes;
                   frequencies := freq;
                   treeRoot :=
                     match src with
                     | AppTsx => treeRoot st
                     | Part000 => root
                     end |},
                encoded)
      end
  end.

(** The effect [useEffect(() => { const encoded = encode(inputText,
    mValue); setEncodedText(encoded); }, [inputText, mValue])]. *)
Definition encodeEffect (fuel : nat) (st : AppState) (inputText : jsstring)
  (mValue : Z) : option AppState :=
  match encode fuel st inputText mValue with
  | None => None
  | Some (st', encoded) =>
      Some {| encodedText := encoded;
              compressionRatio := compressionRatio st';
              huffmanCodes := huffmanCodes st';
              frequencies := frequencies st';
              treeRoot := treeRoot st' |}
  end.
End Codec.

(** The two sizes the statistics panel shows:
    [inputText.length * 8] and [encodedText.length]. *)
Definition shownOriginalBits (inputText : jsstring) : Z :=
  Z.of_nat (length inputText) * 8.

Definition shownCompressedBits (st : AppState) : Z :=
  Z.of_nat (length (encodedText st)).

Definition fuelFor (text : jsstring) (m : Z) : nat :=
  (length text + Z.to_nat m)%nat.

(** ** File upload (the later copy only) *)

(** The object that [handleFileUpload] hands to [JSON.stringify] to make
    the compressed file. *)
Module CompressionData.
Record t : Type := {
  mValue : Z;
  huffmanCodes : list (jsstring * jsstring);
  encodedData : jsstring;
  originalFileName : jsstring
}.
End CompressionData.

(** The [reader.onload] callback of [handleFileUpload], for a file of the
    given name and content.  [mValue] and [huffmanCodes] are the values
    the handler closed over, those of the state [st] of the render that
    created it: the [setHuffmanCodes] that [encode] issues does not change
    them.  The result is the state after the callback, the new
    [inputText], and the content of the compressed file before
    serialisation. *)
Definition handleFileUpload (localeCompare : jsstring -> jsstring -> Z)
  (fuel : nat) (st : AppState) (mValue : Z) (fileName text : jsstring)
  : option (AppState * jsstring * CompressionData.t) :=
  match encode localeCompare Part000 fuel st text mValue with
  | None => None
  | Some (st', encoded) =>
      Some ({| encodedText := encoded;
               compressionRatio := compressionRatio st';
               huffmanCodes := huffmanCodes st';
               frequencies := frequencies st';
               treeRoot := treeRoot st' |},
            text,
            {| CompressionData.mValue := mValue;
               CompressionData.huffmanCodes := huffmanCodes st;
               CompressionData.encodedData := encoded;
               CompressionData.originalFileName := fileName |})
  end.

(** ** Drawing a node (the later copy only) *)

(** The three fill classes of the circle that [TreeNode] draws. *)
Variant NodeStyle : Type := GrayDummy | IndigoLeaf | PurpleInternal.

(** [isLeaf ? (isDummy ? gray : indigo) : purple], with
    [isLeaf = node.children.length === 0] and
    [isDummy = node.data.startsWith("dummy")]. *)
Definition nodeStyle (node : HuffmanTreeNode) : NodeStyle :=
  let isLeaf := Z.of_nat (length (children node)) =? 0 in
  let isDummy := startsWith (data node) (lit "dummy") in
  if isLeaf then (if isDummy then GrayDummy else IndigoLeaf)
  else PurpleInternal.

Variant NodeLabel : Type :=
  | TextLabel (text : jsstring)
  | NumberLabel (n : Z).

(** The text in the circle:
    [isLeaf ? (node.data === " " ? U+2423 : node.data) : node.freq]. *)
Definition nodeLabel (node : HuffmanTreeNode) : NodeLabel :=
  let isLeaf := Z.of_nat (length (children node)) =? 0 in
  if isLeaf
  then TextLabel (if str_eqb (data node) (lit " ") then [9251]
                  else data node)
  else NumberLabel (freq node).

(** ** Decoding *)

Variant DecodeResult : Type :=
  | Decoded (symbols : list jsstring)
  | DecodeError (offset : Z).

(** The symbol whose code is exactly [path], if any: the real leaf of the
    trie of the table reached by [path]. *)
Definition leafAt (table : jsMap jsstring) (path : jsstring) : option jsstring :=
  match find (fun e => str_eqb (snd e) path) table with
  | Some e => Some (fst e)
  | None => None
  end.

(** Whether [path] leads to a node of the trie of the table. *)
Definition onTrie (table : jsMap jsstring) (path : jsstring) : bool :=
  existsb (fun e => startsWith (snd e) path) table.

Definition isDigitBelow (m d : Z) : bool := (48 <=? d) && (d <? 48 + m).

(** Modelled from the spec: the decoder, of which the repository has no
    code.  It "greedily consumes digits, walking the tree from the root
    (or building a trie from CodeTable) and emitting a symbol each time a
    real leaf is reached, then restarting from the root; fails with a
    DecodeError if the digit stream is exhausted mid-path (truncated
    payload) or if a digit value >= M is encountered"; the error carries
    "the offset at which it occurred".  [path] is the position in the trie,
    [out] the symbols emitted so far. *)
Fixpoint decodeFrom (m : Z) (table : jsMap jsstring) (payload path : jsstring)
  (offset : Z) (out : list jsstring) : DecodeResult :=
  match payload with
  | [] =>
      match path with
      | [] => Decoded out
      | _ :: _ => DecodeError offset
      end
  | d :: payload' =>
      if negb (isDigitBelow m d) then DecodeError offset
      else
        let path' := path ++ [d] in
        match leafAt table path' with
        | Some symbol =>
            decodeFrom m table payload' [] (offset + 1) (out ++ [symbol])
        | None =>
            if onTrie table path'
            then decodeFrom m table payload' path' (offset + 1) out
            else DecodeError offset
        end
  end.

Definition decode (m : Z) (payload : jsstring) (table : jsMap jsstring)
  : DecodeResult :=
  decodeFrom m table payload [] 0 [].

(** * Vocabulary of the properties *)

(** The shape of what the string iterator yields. *)
Definition isSymbol (c : jsstring) : Prop :=
  (exists a, c = [a]) \/
  (exists a b, c = [a; b] /\ isLeadSurrogate a = true).

(** Every node of a tree, root first. *)
Fixpoint subnodes (node : HuffmanTreeNode) : list HuffmanTreeNode :=
  match node with
  | Node _ _ kids => node :: flat_map subnodes kids
  end.

Definition sumFreq (l : list HuffmanTreeNode) : Z :=
  fold_right (fun n acc => freq n + acc) 0 l.

(** The [codes.set] calls that [generateCodes] makes, in order. *)
Fixpoint codesOf (node : HuffmanTreeNode) (currentCode : jsstring)
  : list (jsstring * jsstring) :=
  match node with
  | Node d _ kids =>
      if isSymbolNode d then [(d, orZeroCode currentCode)]
      else
        (fix each (l : list HuffmanTreeNode) (index : Z) :=
           match l with
           | [] => []
           | child :: l' =>
               codesOf child (currentCode ++ toString index)
                 ++ each l' (index + 1)
           end) kids 0
  end.

Fixpoint codesOfChildren (l : list HuffmanTreeNode) (currentCode : jsstring)
  (index : Z) : list (jsstring * jsstring) :=
  match l with
  | [] => []
  | child :: l' =>
      codesOf child (currentCode ++ toString index)
        ++ codesOfChildren l' currentCode (index + 1)
  end.

(** The [forEach] of [generateCodes], from child number [index] on. *)
Fixpoint forEachChild (l : list HuffmanTreeNode) (currentCode : jsstring)
  (index : Z) (codes : jsMap jsstring) : jsMap jsstring :=
  match l with
  | [] => codes
  | child :: l' =>
      forEachChild l' currentCode (index + 1)
        (generateCodes child (currentCode ++ toString index) codes)
  end.

(** The keys set while walking a tree; they do not depend on the code so
    far. *)
Definition keysOf (node : HuffmanTreeNode) : list jsstring :=
  map fst (codesOf node []).

(** The table that [encode] installs for a tree. *)
Definition tableOf (root : HuffmanTreeNode) : jsMap jsstring :=
  setAll (codesOf root []) [].

(** What a symbol adds to the payload. *)
Definition codeOrEmpty (codes : jsMap jsstring) (char : jsstring) : jsstring :=
  match get char codes with
  | Some code => code
  | None => []
  end.

(** The trees that construction produces: symbol leaves, zero-weight
    dummy leaves, and internal nodes with exactly [m] children whose
    weight is the sum of their children's. *)
#[warnings="-register-all"]
Inductive wellFormed (src : SourceFile) (m : Z) : HuffmanTreeNode -> Prop :=
| wf_symbol c f : isSymbol c -> wellFormed src m (Node c f [])
| wf_dummy i : wellFormed src m (Node (dummyName src i) 0 [])
| wf_internal kids :
    size kids = m -> Forall (wellFormed src m) kids ->
    wellFormed src m (Node (lit "internal") (sumFreq kids) kids).

(** The invariant of the [while] loop, for the multiset [K] of keys the
    final walk will set. *)
Definition invariant (src : SourceFile) (m : Z) (K : list jsstring)
  (pq : list HuffmanTreeNode) : Prop :=
  Forall (wellFormed src m) pq /\
  (size pq - 1) mod (m - 1) = 0 /\
  1 <= size pq /\
  Permutation (flat_map keysOf pq) K.

(** The leaves the queue starts from. *)
Definition leafNodes (frequencies : jsMap Z) : list HuffmanTreeNode :=
  map (fun e => Node (fst e) (snd e) []) frequencies.

Fixpoint dummyNodes (src : SourceFile) (count : nat) (i : Z)
  : list HuffmanTreeNode :=
  match count with
  | O => []
  | S count' => Node (dummyName src i) 0 [] :: dummyNodes src count' (i + 1)
  end.

(** The keys that the dummy leaves will set. *)
Definition dummyKeys (src : SourceFile) (m : Z) (frequencies : jsMap Z)
  : list jsstring :=
  flat_map keysOf
    (dummyNodes src
       (Z.to_nat
          (calculateRequiredDummies (Z.of_nat (length frequencies)) m))
       0).

Definition isDigits (m : Z) (code : jsstring) : Prop :=
  Forall (fun d => isDigitBelow m d = true) code.

(** Neither string is a prefix of the other. *)
Definition incomparable (a b : jsstring) : Prop :=
  startsWith a b = false /\ startsWith b a = false.

Definition incomparableCodes (e1 e2 : jsstring * jsstring) : Prop :=
  incomparable (snd e1) (snd e2).

(** How often a symbol occurs in a sequence of symbols. *)
Fixpoint occurrences (c : jsstring) (l : list jsstring) : Z :=
  match l with
  | [] => 0
  | x :: l' => (if str_eqb x c then 1 else 0) + occurrences c l'
  end.

(** The symbols of a sequence in the order in which they first occur. *)
Fixpoint firstOccurrences (l : list jsstring) : list jsstring :=
  match l with
  | [] => []
  | x :: l' =>
      x :: filter (fun y => negb (str_eqb y x)) (firstOccurrences l')
  end.

(** The sum of [count * h symbol] over a frequency table. *)
Definition weightedSum (h : jsstring -> Z) (m : jsMap Z) : Z :=
  fold_right (fun e acc => snd e * h (fst e) + acc) 0 m.

(** A queue in ascending order of the comparator of [sort]: every node
    compares less than or equal to every later one. *)
Definition ascending (localeCompare : jsstring -> jsstring -> Z)
  (nodes : list HuffmanTreeNode) : Prop :=
  StronglySorted (fun a b => compareNodes localeCompare a b <= 0) nodes.

(** What [Array.prototype.sort] asks of a comparator: opposite signs on
    swapped arguments, and transitivity. *)
Definition consistentComparator (localeCompare : jsstring -> jsstring -> Z)
  : Prop :=
  (forall a b, Z.sgn (localeCompare b a) = - Z.sgn (localeCompare a b)) /\
  (forall a b c, localeCompare a b <= 0 -> localeCompare b c <= 0 ->
                 localeCompare a c <= 0).

(** The leaves of a tree, left to right. *)
Fixpoint leavesOf (node : HuffmanTreeNode) : list HuffmanTreeNode :=
  match node with
  | Node _ _ kids =>
      match kids with
      | [] => [node]
      | _ :: _ => flat_map leavesOf kids
      end
  end.

(** The nodes of a tree that have children. *)
Definition internalNodes (node : HuffmanTreeNode) : list HuffmanTreeNode :=
  filter (fun x => match children x with [] => false | _ :: _ => true end)
    (subnodes node).

(** The children of every node of a tree are in ascending order. *)
Definition childrenAscending (localeCompare : jsstring -> jsstring -> Z)
  (t : HuffmanTreeNode) : Prop :=
  Forall (fun x => ascending localeCompare (children x)) (subnodes t).



(** * Properties *)

(** ** Strings *)

Lemma str_eqb_eq (a b : jsstring) : str_eqb a b = true <-> a = b.
Proof.
  revert b; induction a as [|x a IH]; intros [|y b]; simpl;
    try (split; congruence).
  rewrite andb_true_iff, Z.eqb_eq, IH. split.
  - intros [-> ->]; reflexivity.
  - intros H; injection H; auto.
Qed.

Lemma str_eqb_refl (a : jsstring) : str_eqb a a = true.
Proof. apply str_eqb_eq; reflexivity. Qed.

Lemma str_eqb_neq (a b : jsstring) : str_eqb a b = false <-> a <> b.
Proof.
  rewrite <- str_eqb_eq. destruct (str_eqb a b); split; congruence.
Qed.

Lemma startsWith_app (s p : jsstring) :
  startsWith s p = true <-> exists r, s = p ++ r.
Proof.
  revert s; induction p as [|y p IH]; intros s; simpl.
  - split; [intros _; exists s; reflexivity | reflexivity].
  - destruct s as [|x s].
    + split; [discriminate | intros [r Hr]; discriminate].
    + rewrite andb_true_iff, Z.eqb_eq, IH. split.
      * intros [-> [r ->]]. eauto.
      * intros [r Hr]. injection Hr as -> ->. eauto.
Qed.

Lemma startsWith_length (s p : jsstring) :
  startsWith s p = true -> (length p <= length s)%nat.
Proof.
  intros H. apply startsWith_app in H as [r ->].
  rewrite length_app. lia.
Qed.

(** A one-digit index prints as that digit. *)
Lemma toString_digit (n : Z) : 0 <= n < 10 -> toString n = [48 + n].
Proof.
  intros H. unfold toString. cbn [toDigits].
  rewrite Z.mod_small by lia.
  destruct (n <? 10) eqn:E; [reflexivity | apply Z.ltb_ge in E; lia].
Qed.

Lemma stringIterator_ind (P : jsstring -> Prop) :
  P [] ->
  (forall a, P [a]) ->
  (forall a b rest,
      isLeadSurrogate a && isTrailSurrogate b = true ->
      P rest -> P (a :: b :: rest)) ->
  (forall a b rest,
      isLeadSurrogate a && isTrailSurrogate b = false ->
      P (b :: rest) -> P (a :: b :: rest)) ->
  forall text, P text.
Proof.
  intros H0 H1 H2 H3 text.
  enough (P text /\ forall a, P (a :: text)) by tauto.
  induction text as [|b rest [IH1 IH2]].
  - split; auto.
  - split; [apply IH2|].
    intros a. destruct (isLeadSurrogate a && isTrailSurrogate b) eqn:E.
    + apply H2; assumption.
    + apply H3; [assumption | apply IH2].
Qed.

Lemma stringIterator_symbols (text : jsstring) :
  Forall isSymbol (stringIterator text).
Proof.
  induction text as [|a|a b rest E IH|a b rest E IH] using stringIterator_ind.
  - constructor.
  - simpl. constructor; [left; eauto | constructor].
  - simpl. rewrite E. constructor; [|assumption].
    right. exists a, b. split; [reflexivity|].
    apply andb_true_iff in E; tauto.
  - change (stringIterator (a :: b :: rest))
      with (if isLeadSurrogate a && isTrailSurrogate b
            then [a; b] :: stringIterator rest
            else [a] :: stringIterator (b :: rest)).
    rewrite E. constructor; [left; eauto | assumption].
Qed.

Lemma stringIterator_concat (text : jsstring) :
  concat (stringIterator text) = text.
Proof.
  induction text as [|a|a b rest E IH|a b rest E IH] using stringIterator_ind.
  - reflexivity.
  - reflexivity.
  - simpl. rewrite E. simpl. rewrite IH. reflexivity.
  - change (stringIterator (a :: b :: rest))
      with (if isLeadSurrogate a && isTrailSurrogate b
            then [a; b] :: stringIterator rest
            else [a] :: stringIterator (b :: rest)).
    rewrite E. simpl. simpl in IH. rewrite IH. reflexivity.
Qed.

Lemma stringIterator_nonempty (text : jsstring) :
  text <> [] -> stringIterator text <> [].
Proof.
  intros H E. apply H. rewrite <- (stringIterator_concat text), E.
  reflexivity.
Qed.

Lemma stringIterator_length (text : jsstring) :
  (length (stringIterator text) <= length text)%nat.
Proof.
  induction text as [|a|a b rest E IH|a b rest E IH] using stringIterator_ind.
  - simpl; lia.
  - simpl; lia.
  - simpl. rewrite E. simpl. lia.
  - change (stringIterator (a :: b :: rest))
      with (if isLeadSurrogate a && isTrailSurrogate b
            then [a; b] :: stringIterator rest
            else [a] :: stringIterator (b :: rest)).
    rewrite E. simpl. simpl in IH. lia.
Qed.

Lemma symbol_length (c : jsstring) :
  isSymbol c -> (1 <= length c <= 2)%nat.
Proof.
  intros [[a ->] | (a & b & -> & _)]; simpl; lia.
Qed.

(** A symbol of the text is never taken for an internal or a dummy node. *)
Lemma symbol_isSymbolNode (c : jsstring) :
  isSymbol c -> isSymbolNode c = true.
Proof.
  intros H. apply symbol_length in H. unfold isSymbolNode.
  apply andb_true_iff; split; apply negb_true_iff.
  - apply str_eqb_neq. intros ->. simpl in H. lia.
  - destruct (startsWith c (lit "dummy")) eqn:E; [|reflexivity].
    apply startsWith_length in E. simpl in E. lia.
Qed.

Lemma toDigits_length (fuel : nat) (n : Z) (acc : jsstring) :
  (length acc <= length (toDigits fuel n acc))%nat.
Proof.
  revert n acc; induction fuel as [|fuel IH]; intros n acc; cbn [toDigits].
  - lia.
  - destruct (n <? 10); [cbn [length]; lia|].
    etransitivity; [|apply IH]. cbn [length]; lia.
Qed.

Lemma toString_nonempty (n : Z) : toString n <> [].
Proof.
  unfold toString. cbn [toDigits]. destruct (n <? 10); [discriminate|].
  intros E.
  pose proof (toDigits_length (Z.to_nat (Z.log2 n)) (n / 10) [48 + n mod 10]) as H.
  rewrite E in H. cbn [length] in H. lia.
Qed.

Lemma dummyName_shape (src : SourceFile) (i : Z) :
  exists u rest,
    dummyName src i = u :: rest /\ rest <> [] /\ isLeadSurrogate u = false.
Proof.
  pose proof (toString_nonempty i) as Hne.
  destruct src; unfold dummyName; simpl.
  - exists 100, (lit "ummy" ++ toString i). split; [reflexivity|].
    split; [discriminate | reflexivity].
  - exists 122, (toString i). auto.
Qed.

Lemma symbol_not_dummyName (src : SourceFile) (i : Z) (c : jsstring) :
  isSymbol c -> c <> dummyName src i.
Proof.
  destruct (dummyName_shape src i) as (u & rest & -> & Hne & Hu).
  intros [[a ->] | (a & b & -> & Hl)] E; injection E as -> E.
  - congruence.
  - congruence.
Qed.

Lemma dummyName_not_internal (src : SourceFile) (i : Z) :
  dummyName src i <> lit "internal".
Proof. destruct src; discriminate. Qed.

(** ** Maps *)

Section MapFacts.
Context {V : Type}.
Implicit Types (m : jsMap V) (k : jsstring) (v : V).

Lemma keys_set k v m k' :
  In k' (keys (set k v m)) <-> k' = k \/ In k' (keys m).
Proof.
  induction m as [|[k0 v0] m IH]; simpl.
  - intuition.
  - destruct (str_eqb k0 k) eqn:E; simpl.
    + apply str_eqb_eq in E. subst k0. intuition.
    + rewrite IH. intuition.
Qed.

Lemma set_NoDup k v m : NoDup (keys m) -> NoDup (keys (set k v m)).
Proof.
  induction m as [|[k0 v0] m IH]; simpl; intros H.
  - constructor; [intros [] | constructor].
  - inversion H as [|? ? Hn Hd]; subst.
    destruct (str_eqb k0 k) eqn:E; simpl.
    + constructor; assumption.
    + constructor; [|auto].
      rewrite keys_set. intros [-> | Hin]; [|contradiction].
      rewrite str_eqb_refl in E. discriminate.
Qed.

Lemma In_set k v m k' v' :
  In (k', v') (set k v m) -> (k' = k /\ v' = v) \/ In (k', v') m.
Proof.
  induction m as [|[k0 v0] m IH]; simpl.
  - intros [E | []]. injection E as <- <-. auto.
  - destruct (str_eqb k0 k) eqn:E; simpl.
    + apply str_eqb_eq in E. subst k0.
      intros [E' | H]; [injection E' as <- <-|]; auto.
    + intros [E' | H]; [auto|]. apply IH in H. tauto.
Qed.

Lemma get_set_same k v m : get k (set k v m) = Some v.
Proof.
  induction m as [|[k0 v0] m IH]; simpl.
  - rewrite str_eqb_refl. reflexivity.
  - destruct (str_eqb k0 k) eqn:E; simpl; rewrite E; auto.
Qed.

Lemma get_set_other k v m k' : k' <> k -> get k' (set k v m) = get k' m.
Proof.
  intros Hne. induction m as [|[k0 v0] m IH]; simpl.
  - destruct (str_eqb k k') eqn:E; [|reflexivity].
    apply str_eqb_eq in E. congruence.
  - destruct (str_eqb k0 k) eqn:E; simpl.
    + apply str_eqb_eq in E. subst k0.
      destruct (str_eqb k k') eqn:E'; [|reflexivity].
      apply str_eqb_eq in E'. congruence.
    + rewrite IH. reflexivity.
Qed.

Lemma get_In k v m : get k m = Some v -> In (k, v) m.
Proof.
  induction m as [|[k0 v0] m IH]; simpl; [discriminate|].
  destruct (str_eqb k0 k) eqn:E.
  - apply str_eqb_eq in E. intros H. injection H as ->. subst. auto.
  - auto.
Qed.

Lemma In_keys k v m : In (k, v) m -> In k (keys m).
Proof. intros H. apply (in_map fst) in H. exact H. Qed.

Lemma In_get k v m : NoDup (keys m) -> In (k, v) m -> get k m = Some v.
Proof.
  induction m as [|[k0 v0] m IH]; simpl; intros Hd; [intros []|].
  inversion Hd as [|? ? Hn Hd']; subst.
  intros [E' | H].
  - injection E' as -> ->. rewrite str_eqb_refl. reflexivity.
  - destruct (str_eqb k0 k) eqn:E; [|auto].
    apply str_eqb_eq in E. subst k0.
    exfalso. apply Hn. eapply In_keys; eassumption.
Qed.

(** In a map, a key that is present has exactly one entry. *)
Lemma unique_entry k v m :
  NoDup (keys m) -> In (k, v) m ->
  filter (fun e => str_eqb (fst e) k) m = [(k, v)].
Proof.
  induction m as [|[k0 v0] m IH]; simpl; intros Hd; [intros []|].
  inversion Hd as [|? ? Hn Hd']; subst.
  assert (Hnone : forall m', ~ In k (keys m') ->
                             filter (fun e => str_eqb (fst e) k) m' = []).
  { induction m' as [|[k1 v1] m' IH']; simpl; [reflexivity|].
    intros Hk. destruct (str_eqb k1 k) eqn:E.
    - apply str_eqb_eq in E. tauto.
    - apply IH'. tauto. }
  intros [E' | H].
  - injection E' as -> ->. rewrite str_eqb_refl, Hnone by assumption.
    reflexivity.
  - destruct (str_eqb k0 k) eqn:E.
    + apply str_eqb_eq in E. subst k0.
      exfalso. apply Hn. eapply In_keys; eassumption.
    + auto.
Qed.

Lemma setAll_app l1 l2 m : setAll (l1 ++ l2) m = setAll l2 (setAll l1 m).
Proof. apply fold_left_app. Qed.

Lemma setAll_NoDup l m : NoDup (keys m) -> NoDup (keys (setAll l m)).
Proof.
  revert m; induction l as [|[k v] l IH]; simpl; intros m H; [assumption|].
  apply IH, set_NoDup, H.
Qed.

Lemma keys_setAll l m k :
  In k (keys (setAll l m)) <-> In k (map fst l) \/ In k (keys m).
Proof.
  revert m; induction l as [|[k0 v0] l IH]; simpl; intros m.
  - tauto.
  - rewrite IH, keys_set. intuition.
Qed.

Lemma In_setAll l m k v :
  In (k, v) (setAll l m) -> In (k, v) l \/ In (k, v) m.
Proof.
  revert m; induction l as [|[k0 v0] l IH]; simpl; intros m H.
  - auto.
  - apply IH in H as [H | H]; [auto|].
    apply In_set in H as [[-> ->] | H]; auto.
Qed.
End MapFacts.

(** ** Frequencies *)

Lemma calculateFrequencies_keys (text : jsstring) (k : jsstring) :
  In k (keys (calculateFrequencies text)) <-> In k (stringIterator text).
Proof.
  unfold calculateFrequencies.
  enough (G : forall l (m : jsMap Z),
             In k (keys (fold_left
                (fun freq char => set char (orZero (get char freq) + 1) freq)
                l m)) <-> In k l \/ In k (keys m)).
  { rewrite G. simpl. tauto. }
  induction l as [|c l IH]; simpl; intros m.
  - tauto.
  - rewrite IH, keys_set. intuition.
Qed.

Lemma calculateFrequencies_NoDup (text : jsstring) :
  NoDup (keys (calculateFrequencies text)).
Proof.
  unfold calculateFrequencies.
  enough (G : forall l (m : jsMap Z), NoDup (keys m) ->
             NoDup (keys (fold_left
                (fun freq char => set char (orZero (get char freq) + 1) freq)
                l m))).
  { apply G. constructor. }
  induction l as [|c l IH]; simpl; intros m H; [assumption|].
  apply IH, set_NoDup, H.
Qed.

Lemma calculateFrequencies_length (text : jsstring) :
  (length (calculateFrequencies text) <= length text)%nat.
Proof.
  etransitivity; [|apply stringIterator_length].
  rewrite <- (length_map fst).
  apply NoDup_incl_length; [apply calculateFrequencies_NoDup|].
  intros k. apply calculateFrequencies_keys.
Qed.

(** ** The priority queue *)

Section QueueFacts.
Variable localeCompare : jsstring -> jsstring -> Z.


Lemma insertSorted_perm x (l : list HuffmanTreeNode) :
  Permutation (insertSorted localeCompare x l) (x :: l).
Proof.
  induction l as [|y l IH]; simpl; [reflexivity|].
  destruct (compareNodes localeCompare x y <? 0); [reflexivity|].
  rewrite IH. apply perm_swap.
Qed.

Lemma sort_perm (l : list HuffmanTreeNode) : Permutation (sort localeCompare l) l.
Proof.
  unfold sort.
  enough (G : forall l acc,
             Permutation
               (fold_left (fun acc x => insertSorted localeCompare x acc) l acc)
               (acc ++ l)) by apply (G l []).
  clear l. induction l as [|x l IH]; simpl; intros acc.
  - rewrite app_nil_r. reflexivity.
  - rewrite IH, insertSorted_perm.
    change (x :: acc) with ([x] ++ acc).
    change (x :: l) with ([x] ++ l).
    rewrite !app_assoc.
    apply Permutation_app_tail, Permutation_app_comm.
Qed.

Lemma enqueue_perm x (pq : list HuffmanTreeNode) :
  Permutation (enqueue localeCompare x pq) (x :: pq).
Proof.
  unfold enqueue. rewrite sort_perm.
  rewrite Permutation_app_comm. reflexivity.
Qed.

Lemma size_enqueue x (pq : list HuffmanTreeNode) :
  size (enqueue localeCompare x pq) = size pq + 1.
Proof.
  unfold size. rewrite (Permutation_length (enqueue_perm x pq)).
  simpl length. lia.
Qed.
End QueueFacts.

(** ** Trees *)

Lemma HuffmanTreeNode_forall_ind (P : HuffmanTreeNode -> Prop) :
  (forall d f kids, Forall P kids -> P (Node d f kids)) ->
  forall node, P node.
Proof.
  intros step. fix IH 1. intros [d f kids]. apply step.
  induction kids as [|k kids IHk]; constructor; [apply IH | exact IHk].
Qed.

Lemma codesOf_eq d f kids cur :
  codesOf (Node d f kids) cur =
  if isSymbolNode d then [(d, orZeroCode cur)]
  else codesOfChildren kids cur 0.
Proof.
  simpl. destruct (isSymbolNode d); [reflexivity|].
  generalize 0. induction kids as [|k kids IH]; intros i; [reflexivity|].
  simpl. rewrite IH. reflexivity.
Qed.

Lemma generateCodes_eq d f kids cur codes :
  generateCodes (Node d f kids) cur codes =
  if isSymbolNode d then set d (orZeroCode cur) codes
  else forEachChild kids cur 0 codes.
Proof.
  simpl. destruct (isSymbolNode d); [reflexivity|].
  generalize 0. revert codes.
  induction kids as [|k kids IH]; intros codes i; [reflexivity|].
  simpl. rewrite IH. reflexivity.
Qed.

(** [generateCodes] performs exactly the [set] calls listed by [codesOf]. *)
Lemma generateCodes_setAll node :
  forall cur codes,
    generateCodes node cur codes = setAll (codesOf node cur) codes.
Proof.
  induction node as [d f kids IH] using HuffmanTreeNode_forall_ind.
  intros cur codes. rewrite generateCodes_eq, codesOf_eq.
  destruct (isSymbolNode d); [reflexivity|].
  generalize 0. revert codes.
  induction IH as [|k kids Hk _ IHkids]; intros codes i; [reflexivity|].
  simpl. rewrite setAll_app, <- Hk. apply IHkids.
Qed.

Lemma codesOf_keys node : forall cur, map fst (codesOf node cur) = keysOf node.
Proof.
  unfold keysOf.
  induction node as [d f kids IH] using HuffmanTreeNode_forall_ind.
  intros cur. rewrite !codesOf_eq.
  destruct (isSymbolNode d); [reflexivity|].
  generalize 0.
  induction IH as [|k kids Hk _ IHkids]; intros i; [reflexivity|].
  simpl. rewrite !map_app. f_equal; [|apply IHkids].
  rewrite Hk. symmetry. apply Hk.
Qed.

Lemma codesOfChildren_keys l cur i :
  map fst (codesOfChildren l cur i) = flat_map keysOf l.
Proof.
  revert i; induction l as [|k l IH]; intros i; [reflexivity|].
  simpl. rewrite map_app, codesOf_keys, IH. reflexivity.
Qed.

Lemma keysOf_internal f kids :
  keysOf (Node (lit "internal") f kids) = flat_map keysOf kids.
Proof.
  unfold keysOf at 1. rewrite codesOf_eq.
  change (isSymbolNode (lit "internal")) with false.
  apply codesOfChildren_keys.
Qed.

Lemma keysOf_symbol c f : isSymbol c -> keysOf (Node c f []) = [c].
Proof.
  intros H. unfold keysOf. rewrite codesOf_eq, symbol_isSymbolNode by exact H.
  reflexivity.
Qed.

(** Every code handed to [set] is non-empty. *)
Lemma orZeroCode_nonempty cur : orZeroCode cur <> [].
Proof. destruct cur; discriminate. Qed.

Lemma codesOf_nonempty node :
  forall cur, Forall (fun e => snd e <> []) (codesOf node cur).
Proof.
  induction node as [d f kids IH] using HuffmanTreeNode_forall_ind.
  intros cur. rewrite codesOf_eq.
  destruct (isSymbolNode d).
  - constructor; [apply orZeroCode_nonempty | constructor].
  - generalize 0.
    induction IH as [|k kids Hk _ IHkids]; intros i; [constructor|].
    simpl. apply Forall_app. split; [apply Hk | apply IHkids].
Qed.

(** ** Padding *)

Lemma calculateRequiredDummies_range (N M : Z) :
  1 <= N -> 2 <= M -> 0 <= calculateRequiredDummies N M <= M - 2.
Proof.
  intros HN HM. unfold calculateRequiredDummies.
  rewrite Z.rem_mod_nonneg by lia.
  pose proof (Z.mod_pos_bound (N - 1) (M - 1) ltac:(lia)) as Hb.
  destruct ((N - 1) mod (M - 1) =? 0) eqn:E; [lia|].
  apply Z.eqb_neq in E. lia.
Qed.

Lemma calculateRequiredDummies_mod (N M : Z) :
  1 <= N -> 2 <= M ->
  (N + calculateRequiredDummies N M - 1) mod (M - 1) = 0.
Proof.
  intros HN HM. unfold calculateRequiredDummies.
  rewrite Z.rem_mod_nonneg by lia.
  destruct ((N - 1) mod (M - 1) =? 0) eqn:E.
  - apply Z.eqb_eq in E. rewrite Z.add_0_r. exact E.
  - replace (N + (M - 1 - (N - 1) mod (M - 1)) - 1)
      with ((N - 1 - (N - 1) mod (M - 1)) + 1 * (M - 1)) by lia.
    rewrite Z.mod_add by lia.
    rewrite Zminus_mod, Zmod_mod, Z.sub_diag. apply Z.mod_0_l. lia.
Qed.

Lemma calculateRequiredDummies_one (M : Z) :
  2 <= M -> calculateRequiredDummies 1 M = 0.
Proof.
  intros HM. unfold calculateRequiredDummies.
  change (1 - 1) with 0. rewrite Z.rem_0_l by lia. reflexivity.
Qed.

(** ** Tree construction *)

Section BuildFacts.
Variable localeCompare : jsstring -> jsstring -> Z.
Variable src : SourceFile.
Variable m : Z.
Hypothesis m_ge_2 : 2 <= m.

Lemma takeChildren_spec count :
  forall kids tot (pq : list HuffmanTreeNode),
    (count <= length pq)%nat ->
    takeChildren count kids tot pq =
    (kids ++ firstn count pq, tot + sumFreq (firstn count pq),
     skipn count pq).
Proof.
  induction count as [|count IH]; intros kids tot pq Hlen; simpl.
  - rewrite app_nil_r, Z.add_0_r. reflexivity.
  - destruct pq as [|x pq]; [simpl in Hlen; lia|].
    simpl in *. rewrite IH by lia. rewrite <- app_assoc.
    simpl. f_equal. f_equal. lia.
Qed.

Lemma mergeStep_spec (pq : list HuffmanTreeNode) :
  m <= size pq ->
  mergeStep localeCompare m pq =
  enqueue localeCompare
    (Node (lit "internal") (sumFreq (firstn (Z.to_nat m) pq))
       (firstn (Z.to_nat m) pq))
    (skipn (Z.to_nat m) pq).
Proof.
  intros Hsz. unfold mergeStep. rewrite Z.min_l by exact Hsz.
  rewrite takeChildren_spec by (unfold size in Hsz; lia).
  reflexivity.
Qed.

Lemma invariant_full_merge K pq :
  invariant src m K pq -> 1 < size pq -> m <= size pq.
Proof.
  intros (_ & Hmod & _ & _) Hsz.
  apply Z.mod_divide in Hmod; [|lia].
  destruct Hmod as [q Hq].
  assert (1 <= q) by nia. nia.
Qed.

Lemma mergeStep_invariant K pq :
  invariant src m K pq -> 1 < size pq ->
  invariant src m K (mergeStep localeCompare m pq) /\
  size (mergeStep localeCompare m pq) = size pq - (m - 1).
Proof.
  intros HI Hsz.
  pose proof (invariant_full_merge K pq HI Hsz) as Hfull.
  destruct HI as (Hwf & Hmod & _ & Hkeys).
  rewrite mergeStep_spec by exact Hfull.
  set (k := Z.to_nat m).
  assert (Hk : (k <= length pq)%nat) by (unfold size in Hfull; lia).
  assert (Hsplit : firstn k pq ++ skipn k pq = pq) by apply firstn_skipn.
  assert (Hlen_first : length (firstn k pq) = k)
    by (rewrite length_firstn; lia).
  assert (Hlen_skip : length (skipn k pq) = (length pq - k)%nat)
    by apply length_skipn.
  assert (Hsize : size (enqueue localeCompare
                          (Node (lit "internal") (sumFreq (firstn k pq))
                             (firstn k pq)) (skipn k pq))
                  = size pq - (m - 1)).
  { rewrite size_enqueue. unfold size. rewrite Hlen_skip. lia. }
  split; [|exact Hsize].
  rewrite <- Hsplit in Hwf. apply Forall_app in Hwf as [Hwf1 Hwf2].
  repeat split.
  - eapply Permutation_Forall;
      [symmetry; apply enqueue_perm|].
    constructor; [|exact Hwf2].
    apply wf_internal; [unfold size; lia | exact Hwf1].
  - rewrite Hsize.
    replace (size pq - (m - 1) - 1) with (size pq - 1 + (-1) * (m - 1))
      by lia.
    rewrite Z.mod_add by lia. exact Hmod.
  - rewrite Hsize. lia.
  - rewrite (Permutation_flat_map keysOf (enqueue_perm localeCompare _ _)).
    simpl. rewrite keysOf_internal, <- flat_map_app, Hsplit.
    exact Hkeys.
Qed.

(** The loop ends, on a single node that satisfies the invariant. *)
Lemma mergeLoop_result K :
  forall fuel pq,
    invariant src m K pq -> (length pq <= fuel)%nat ->
    exists root,
      mergeLoop localeCompare fuel m pq = Some [root] /\
      invariant src m K [root].
Proof.
  induction fuel as [|fuel IH]; intros pq HI Hfuel.
  - destruct HI as (_ & _ & Hsz & _). unfold size in Hsz. lia.
  - simpl. destruct (1 <? size pq) eqn:E.
    + apply Z.ltb_lt in E.
      destruct (mergeStep_invariant K pq HI E) as [HI' Hsz'].
      apply IH; [exact HI'|].
      unfold size in Hsz', E. lia.
    + apply Z.ltb_ge in E.
      pose proof HI as (_ & _ & Hsz & _).
      destruct pq as [|root [|y pq]]; unfold size in *; simpl in *;
        try lia.
      exists root. auto.
Qed.

Lemma enqueueLeaves_perm frequencies :
  forall pq,
    Permutation (enqueueLeaves localeCompare frequencies pq)
      (pq ++ leafNodes frequencies).
Proof.
  unfold enqueueLeaves.
  induction frequencies as [|e l IH]; intros pq; simpl.
  - rewrite app_nil_r. reflexivity.
  - rewrite IH, enqueue_perm.
    change (Node (fst e) (snd e) [] :: leafNodes l)
      with ([Node (fst e) (snd e) []] ++ leafNodes l).
    rewrite app_assoc. apply Permutation_app_tail.
    change (Node (fst e) (snd e) [] :: pq)
      with ([Node (fst e) (snd e) []] ++ pq).
    apply Permutation_app_comm.
Qed.

Lemma enqueueDummies_perm count :
  forall i pq,
    Permutation (enqueueDummies localeCompare src count i pq)
      (pq ++ dummyNodes src count i).
Proof.
  induction count as [|count IH]; intros i pq; simpl.
  - rewrite app_nil_r. reflexivity.
  - rewrite IH, enqueue_perm.
    change (Node (dummyName src i) 0 [] :: dummyNodes src count (i + 1))
      with ([Node (dummyName src i) 0 []] ++ dummyNodes src count (i + 1)).
    rewrite app_assoc. apply Permutation_app_tail.
    change (Node (dummyName src i) 0 [] :: pq)
      with ([Node (dummyName src i) 0 []] ++ pq).
    apply Permutation_app_comm.
Qed.

Lemma dummyNodes_length count i : length (dummyNodes src count i) = count.
Proof.
  revert i; induction count as [|count IH]; intros i; simpl; auto.
Qed.

Lemma dummyNodes_wellFormed count i : Forall (wellFormed src m) (dummyNodes src count i).
Proof.
  revert i; induction count as [|count IH]; intros i; simpl;
    constructor; [apply wf_dummy | apply IH].
Qed.

Lemma leafNodes_wellFormed frequencies :
  Forall isSymbol (keys frequencies) -> Forall (wellFormed src m) (leafNodes frequencies).
Proof.
  induction frequencies as [|[c f] l IH]; simpl; intros H;
    inversion H; subst; constructor; [apply wf_symbol | apply IH];
    assumption.
Qed.

Lemma leafNodes_keys frequencies :
  Forall isSymbol (keys frequencies) ->
  flat_map keysOf (leafNodes frequencies) = keys frequencies.
Proof.
  induction frequencies as [|[c f] l IH]; simpl; intros H;
    [reflexivity|].
  inversion H; subst. rewrite keysOf_symbol, IH by assumption.
  reflexivity.
Qed.

Lemma size_enqueueLeaves frequencies :
  size (enqueueLeaves localeCompare frequencies []) =
  Z.of_nat (length frequencies).
Proof.
  unfold size.
  rewrite (Permutation_length (enqueueLeaves_perm frequencies [])).
  simpl. unfold leafNodes. rewrite length_map. reflexivity.
Qed.

Lemma paddedQueue_perm frequencies :
  Permutation (paddedQueue localeCompare src frequencies m)
    (leafNodes frequencies ++
     dummyNodes src
       (Z.to_nat
          (calculateRequiredDummies (Z.of_nat (length frequencies)) m))
       0).
Proof.
  unfold paddedQueue. rewrite enqueueDummies_perm.
  rewrite size_enqueueLeaves.
  apply Permutation_app_tail.
  rewrite enqueueLeaves_perm. reflexivity.
Qed.

Lemma paddedQueue_size frequencies :
  (1 <= length frequencies)%nat ->
  size (paddedQueue localeCompare src frequencies m) =
  Z.of_nat (length frequencies) +
  calculateRequiredDummies (Z.of_nat (length frequencies)) m.
Proof.
  intros Hlen. unfold size at 1.
  rewrite (Permutation_length (paddedQueue_perm frequencies)).
  rewrite length_app, dummyNodes_length. unfold leafNodes.
  rewrite length_map.
  pose proof (calculateRequiredDummies_range
                (Z.of_nat (length frequencies)) m) as Hr.
  lia.
Qed.

Lemma paddedQueue_invariant frequencies :
  Forall isSymbol (keys frequencies) ->
  (1 <= length frequencies)%nat ->
  invariant src m (keys frequencies ++ dummyKeys src m frequencies)
    (paddedQueue localeCompare src frequencies m).
Proof.
  intros Hsym Hlen.
  pose proof (calculateRequiredDummies_range
                (Z.of_nat (length frequencies)) m ltac:(lia) m_ge_2) as Hr.
  repeat split.
  - eapply Permutation_Forall; [symmetry; apply paddedQueue_perm|].
    apply Forall_app. split;
      [apply leafNodes_wellFormed, Hsym | apply dummyNodes_wellFormed].
  - rewrite paddedQueue_size by exact Hlen.
    apply calculateRequiredDummies_mod; lia.
  - rewrite paddedQueue_size by exact Hlen. lia.
  - rewrite (Permutation_flat_map keysOf (paddedQueue_perm frequencies)).
    rewrite flat_map_app, leafNodes_keys by exact Hsym.
    reflexivity.
Qed.
End BuildFacts.

(** The result of the loop does not depend on how much fuel was given. *)
Lemma mergeLoop_fuel_irrelevant localeCompare m :
  forall fuel1 fuel2 pq r1 r2,
    mergeLoop localeCompare fuel1 m pq = Some r1 ->
    mergeLoop localeCompare fuel2 m pq = Some r2 ->
    r1 = r2.
Proof.
  induction fuel1 as [|fuel1 IH]; intros fuel2 pq r1 r2; simpl;
    [discriminate|].
  destruct fuel2 as [|fuel2]; simpl; [discriminate|].
  destruct (1 <? size pq); [apply IH | congruence].
Qed.

Lemma wellFormed_kids src m d f kids :
  wellFormed src m (Node d f kids) -> Forall (wellFormed src m) kids.
Proof. intros H. inversion H; subst; [constructor .. | assumption]. Qed.

Lemma wellFormed_subnodes src m node :
  wellFormed src m node -> Forall (wellFormed src m) (subnodes node).
Proof.
  induction node as [d f kids IH] using HuffmanTreeNode_forall_ind.
  intros H. simpl. constructor; [exact H|].
  apply wellFormed_kids in H.
  induction IH as [|k kids Hk _ IHkids]; simpl; [constructor|].
  inversion H; subst. apply Forall_app. split; auto.
Qed.

(** In a well-formed tree the node named ["internal"] has exactly [m]
    children, a dummy has weight 0, and a leaf is a symbol or a dummy. *)
Lemma wellFormed_internal src m node :
  wellFormed src m node -> data node = lit "internal" ->
  size (children node) = m.
Proof.
  intros H E. inversion H as [c f Hs | i | kids Hsz Hk]; subst node;
    simpl in *.
  - apply symbol_length in Hs. rewrite E in Hs. simpl in Hs. lia.
  - exfalso. eapply dummyName_not_internal; eassumption.
  - exact Hsz.
Qed.

Lemma wellFormed_dummy src m node i :
  wellFormed src m node -> data node = dummyName src i ->
  freq node = 0 /\ children node = [].
Proof.
  intros H E. inversion H as [c f Hs | j | kids Hsz Hk]; subst node;
    simpl in *.
  - exfalso. eapply symbol_not_dummyName; eassumption.
  - auto.
  - exfalso. eapply dummyName_not_internal. symmetry. eassumption.
Qed.

Lemma wellFormed_leaf_or_internal src m node :
  wellFormed src m node ->
  (children node = [] /\ (length (keysOf node) <= 1)%nat) \/
  data node = lit "internal".
Proof.
  intros H. inversion H as [c f Hs | i | kids Hsz Hk]; subst node;
    simpl; auto; left; split; auto.
  - rewrite keysOf_symbol by assumption. simpl. lia.
  - unfold keysOf. rewrite codesOf_eq.
    destruct (isSymbolNode (dummyName src i)); simpl; lia.
Qed.

(** The dummy leaves set no key in [src/App.tsx]; in the later copy each
    sets its own name. *)
Lemma dummyKeys_names src m frequencies :
  Forall (fun k => exists i, k = dummyName src i)
    (dummyKeys src m frequencies).
Proof.
  unfold dummyKeys. generalize 0.
  generalize (Z.to_nat
                (calculateRequiredDummies (Z.of_nat (length frequencies)) m)).
  induction n as [|n IH]; intros i; simpl; [constructor|].
  apply Forall_app. split; [|apply IH].
  unfold keysOf. rewrite codesOf_eq.
  destruct (isSymbolNode (dummyName src i)); repeat constructor.
  simpl. eauto.
Qed.

Section TreeFacts.
Variable localeCompare : jsstring -> jsstring -> Z.
Variable src : SourceFile.
Variable m : Z.
Hypothesis m_ge_2 : 2 <= m.

Lemma generateMaryTree_result fuel frequencies :
  Forall isSymbol (keys frequencies) ->
  (1 <= length frequencies)%nat ->
  (length frequencies + Z.to_nat m <= fuel)%nat ->
  exists root,
    generateMaryTree localeCompare src fuel frequencies m = Some (Some root) /\
    wellFormed src m root /\
    Permutation (keysOf root) (keys frequencies ++ dummyKeys src m frequencies).
Proof.
  intros Hsym Hlen Hfuel. unfold generateMaryTree.
  rewrite size_enqueueLeaves.
  destruct (Z.of_nat (length frequencies) =? 0) eqn:E0;
    [apply Z.eqb_eq in E0; lia|].
  destruct (Z.of_nat (length frequencies) =? 1) eqn:E1.
  - apply Z.eqb_eq in E1.
    destruct frequencies as [|[c f] [|e l]]; simpl in E1; try lia.
    exists (Node c f []). inversion Hsym; subst.
    split; [reflexivity|]. split; [apply wf_symbol; assumption|].
    rewrite keysOf_symbol by assumption.
    unfold dummyKeys. change (Z.of_nat (length [(c, f)])) with 1.
    rewrite calculateRequiredDummies_one by lia. reflexivity.
  - pose proof (paddedQueue_invariant localeCompare src m m_ge_2
                  frequencies Hsym Hlen) as HI.
    destruct (mergeLoop_result localeCompare src m m_ge_2 _ fuel _ HI)
      as (root & Hloop & Hwf & _ & _ & Hperm).
    { pose proof (paddedQueue_size localeCompare src m m_ge_2
                    frequencies Hlen) as Hsz.
      pose proof (calculateRequiredDummies_range
                    (Z.of_nat (length frequencies)) m ltac:(lia) m_ge_2).
      unfold size in Hsz. lia. }
    exists root. rewrite Hloop. split; [reflexivity|].
    split; [inversion Hwf; assumption|].
    simpl in Hperm. rewrite app_nil_r in Hperm. exact Hperm.
Qed.

Lemma generateMaryTree_fuel_irrelevant fuel1 fuel2 frequencies r1 r2 :
  generateMaryTree localeCompare src fuel1 frequencies m = Some r1 ->
  generateMaryTree localeCompare src fuel2 frequencies m = Some r2 ->
  r1 = r2.
Proof.
  unfold generateMaryTree.
  destruct (size _ =? 0); [congruence|].
  destruct (size _ =? 1); [congruence|].
  destruct (mergeLoop localeCompare fuel1 m _) as [q1|] eqn:E1;
    [|discriminate].
  destruct (mergeLoop localeCompare fuel2 m _) as [q2|] eqn:E2;
    [|discriminate].
  rewrite (mergeLoop_fuel_irrelevant _ _ _ _ _ _ _ E1 E2). congruence.
Qed.

End TreeFacts.

Lemma isSymbolNode_dummy_AppTsx i : isSymbolNode (dummyName AppTsx i) = false.
Proof. reflexivity. Qed.

Lemma isSymbolNode_dummy_Part000 i : isSymbolNode (dummyName Part000 i) = true.
Proof. reflexivity. Qed.

Lemma dummyKeys_AppTsx m frequencies : dummyKeys AppTsx m frequencies = [].
Proof.
  unfold dummyKeys. generalize 0.
  generalize (Z.to_nat
                (calculateRequiredDummies (Z.of_nat (length frequencies)) m)).
  induction n as [|n IH]; intros i; [reflexivity|].
  cbn [dummyNodes flat_map]. rewrite IH, app_nil_r.
  unfold keysOf. rewrite codesOf_eq, isSymbolNode_dummy_AppTsx.
  reflexivity.
Qed.

(** ** Encoding *)

Lemma concatCodes_concat codes text :
  concatCodes codes text =
  concat (map (codeOrEmpty codes) (stringIterator text)).
Proof.
  unfold concatCodes.
  enough (G : forall l acc,
             fold_left (appendCode codes) l acc =
             acc ++ concat (map (codeOrEmpty codes) l)) by apply (G _ []).
  induction l as [|c l IH]; intros acc; simpl.
  - rewrite app_nil_r. reflexivity.
  - rewrite IH, app_assoc. f_equal.
    unfold appendCode, codeOrEmpty.
    destruct (get c codes) as [[|d code]|]; rewrite ?app_nil_r; reflexivity.
Qed.

Lemma calculateFrequencies_symbols text :
  Forall isSymbol (keys (calculateFrequencies text)).
Proof.
  apply Forall_forall. intros k Hk.
  apply calculateFrequencies_keys in Hk.
  pose proof (stringIterator_symbols text) as H.
  rewrite Forall_forall in H. auto.
Qed.

Lemma calculateFrequencies_nonempty text :
  text <> [] -> (1 <= length (calculateFrequencies text))%nat.
Proof.
  intros H. apply stringIterator_nonempty in H.
  destruct (stringIterator text) as [|c l] eqn:E; [congruence|].
  assert (Hin : In c (keys (calculateFrequencies text))).
  { apply calculateFrequencies_keys. rewrite E. left. reflexivity. }
  destruct (calculateFrequencies text); [destruct Hin | simpl; lia].
Qed.

Lemma tableOf_NoDup root : NoDup (keys (tableOf root)).
Proof. apply setAll_NoDup. constructor. Qed.

Lemma tableOf_keys root k :
  In k (keys (tableOf root)) <-> In k (keysOf root).
Proof.
  unfold tableOf. rewrite keys_setAll, codesOf_keys. simpl. tauto.
Qed.

Lemma tableOf_In root k v :
  In (k, v) (tableOf root) -> In (k, v) (codesOf root []).
Proof.
  intros H. apply In_setAll in H as [H | []]. exact H.
Qed.

(** Every symbol of the text has an entry, which is non-empty. *)
Lemma tableOf_symbol src m root text c :
  Permutation (keysOf root)
    (keys (calculateFrequencies text)
       ++ dummyKeys src m (calculateFrequencies text)) ->
  In c (stringIterator text) ->
  exists code,
    In (c, code) (tableOf root) /\ get c (tableOf root) = Some code /\
    code <> [].
Proof.
  intros Hperm Hc.
  assert (Hk : In c (keys (tableOf root))).
  { apply tableOf_keys. eapply Permutation_in; [symmetry; exact Hperm|].
    apply in_or_app. left. apply calculateFrequencies_keys, Hc. }
  apply in_map_iff in Hk as ([c' code] & Hfst & Hin).
  simpl in Hfst. subst c'. exists code.
  split; [exact Hin|]. split.
  - apply In_get; [apply tableOf_NoDup | exact Hin].
  - apply tableOf_In in Hin.
    pose proof (codesOf_nonempty root []) as Hn.
    rewrite Forall_forall in Hn. apply (Hn _ Hin).
Qed.

Section EncodeFacts.
Variable localeCompare : jsstring -> jsstring -> Z.
Variable src : SourceFile.
Variable m : Z.
Hypothesis m_ge_2 : 2 <= m.

(** What [encode] does on a non-empty text, in terms of the tree. *)
Lemma encode_result fuel st text :
  text <> [] -> (fuelFor text m <= fuel)%nat ->
  exists root,
    generateMaryTree localeCompare src fuel (calculateFrequencies text) m
      = Some (Some root) /\
    wellFormed src m root /\
    Permutation (keysOf root)
      (keys (calculateFrequencies text)
         ++ dummyKeys src m (calculateFrequencies text)) /\
    encode localeCompare src fuel st text m =
    Some ({| encodedText := encodedText st;
             compressionRatio :=
               ratioOf (Z.of_nat (length text) * 8)
                 (Z.of_nat (length (concatCodes (tableOf root) text)));
             huffmanCodes := tableOf root;
             frequencies := calculateFrequencies text;
             treeRoot :=
               match src with
               | AppTsx => treeRoot st
               | Part000 => Some root
               end |},
          concatCodes (tableOf root) text).
Proof.
  intros Hne Hfuel.
  destruct (generateMaryTree_result localeCompare src m m_ge_2 fuel
              (calculateFrequencies text))
    as (root & Hgen & Hwf & Hperm).
  - apply calculateFrequencies_symbols.
  - apply calculateFrequencies_nonempty, Hne.
  - pose proof (calculateFrequencies_length text).
    unfold fuelFor in Hfuel. lia.
  - exists root. repeat split; try assumption.
    unfold encode. destruct text as [|a text]; [congruence|].
    rewrite Hgen. unfold generateCodesFrom.
    rewrite generateCodes_setAll. reflexivity.
Qed.
End EncodeFacts.

(** ** Codes as digit strings and prefix-freedom *)

Lemma incomparable_sym a b : incomparable a b -> incomparable b a.
Proof. unfold incomparable. tauto. Qed.

Lemma startsWith_refl a : startsWith a a = true.
Proof. apply startsWith_app. exists []. rewrite app_nil_r. reflexivity. Qed.

Lemma not_startsWith_diverge cur x y s t :
  x <> y -> startsWith (cur ++ x :: s) (cur ++ y :: t) = false.
Proof.
  intros Hxy. destruct (startsWith _ _) eqn:E; [|reflexivity].
  apply startsWith_app in E as [r Hr].
  rewrite <- app_assoc in Hr. apply app_inv_head in Hr.
  simpl in Hr. congruence.
Qed.

Lemma incomparable_diverge cur x y s t :
  x <> y -> incomparable (cur ++ x :: s) (cur ++ y :: t).
Proof.
  intros Hxy. split; apply not_startsWith_diverge; congruence.
Qed.

Lemma ForallOrdPairs_app {A} (R : A -> A -> Prop) (l1 l2 : list A) :
  ForallOrdPairs R l1 -> ForallOrdPairs R l2 ->
  (forall a b, In a l1 -> In b l2 -> R a b) ->
  ForallOrdPairs R (l1 ++ l2).
Proof.
  intros H1 H2 Hx. induction H1 as [|a l1 Ha H1 IH]; simpl; [exact H2|].
  constructor.
  - apply Forall_app. split; [exact Ha|].
    apply Forall_forall. intros b Hb. apply Hx; simpl; auto.
  - apply IH. intros a' b Ha' Hb. apply Hx; simpl; auto.
Qed.

(** Below a non-empty code, every code extends it. *)
Lemma codesOf_extends node :
  forall cur, cur <> [] ->
    Forall (fun e => exists s, snd e = cur ++ s) (codesOf node cur).
Proof.
  induction node as [d f kids IH] using HuffmanTreeNode_forall_ind.
  intros cur Hcur. rewrite codesOf_eq.
  destruct (isSymbolNode d).
  - constructor; [|constructor]. exists []. simpl.
    destruct cur; [congruence|]. rewrite app_nil_r. reflexivity.
  - generalize 0.
    induction IH as [|k kids Hk _ IHkids]; intros i; [constructor|].
    simpl. apply Forall_app. split; [|apply IHkids].
    eapply Forall_impl; [|apply (Hk (cur ++ toString i))].
    + intros e [s Hs]. exists (toString i ++ s).
      rewrite Hs, app_assoc. reflexivity.
    + intros E. apply app_eq_nil in E as [E _]. congruence.
Qed.

Section CodeFacts.
Variable src : SourceFile.
Variable m : Z.
Hypothesis m_range : 2 <= m <= 10.

Lemma wellFormed_arity d f kids :
  wellFormed src m (Node d f kids) ->
  size kids <= m /\ Forall (wellFormed src m) kids.
Proof.
  intros H. split; [|eapply wellFormed_kids; exact H].
  inversion H as [c f' Hs | i | kids' Hsz Hk]; subst;
    unfold size in *; simpl; lia.
Qed.

Lemma zero_isDigits : isDigits m (lit "0").
Proof.
  change (lit "0") with [48].
  constructor; [|constructor]. unfold isDigitBelow.
  apply andb_true_iff. split; [reflexivity | apply Z.ltb_lt; lia].
Qed.

Lemma codesOf_digits node :
  wellFormed src m node ->
  forall cur, isDigits m cur ->
    Forall (fun e => isDigits m (snd e)) (codesOf node cur).
Proof.
  induction node as [d f kids IH] using HuffmanTreeNode_forall_ind.
  intros Hwf cur Hcur. rewrite codesOf_eq.
  destruct (isSymbolNode d).
  - constructor; [|constructor]. simpl.
    destruct cur; [apply zero_isDigits | exact Hcur].
  - apply wellFormed_arity in Hwf as [Hsz Hkids].
    assert (G : forall i, 0 <= i -> i + size kids <= m ->
                  Forall (fun e => isDigits m (snd e))
                    (codesOfChildren kids cur i));
      [|apply G; lia].
    clear Hsz.
    induction IH as [|k kids Hk _ IHkids]; intros i Hi Hb;
      [constructor|].
    inversion Hkids; subst.
    unfold size in Hb. simpl length in Hb.
    simpl. apply Forall_app. split.
    + apply Hk; [assumption|].
      rewrite toString_digit by lia.
      apply Forall_app. split; [exact Hcur|].
      constructor; [|constructor]. unfold isDigitBelow.
      apply andb_true_iff. split; [apply Z.leb_le | apply Z.ltb_lt]; lia.
    + apply IHkids; [assumption | lia | unfold size; lia].
Qed.

(** No two codes written for a tree are prefix-comparable: children are
    told apart by one digit. *)
Lemma codesOf_prefix_free node :
  wellFormed src m node ->
  forall cur, ForallOrdPairs incomparableCodes (codesOf node cur).
Proof.
  induction node as [d f kids IH] using HuffmanTreeNode_forall_ind.
  intros Hwf cur. rewrite codesOf_eq.
  destruct (isSymbolNode d).
  - repeat constructor.
  - apply wellFormed_arity in Hwf as [Hsz Hkids].
    assert (G : forall i, 0 <= i -> i + size kids <= m ->
                  ForallOrdPairs incomparableCodes
                    (codesOfChildren kids cur i) /\
                  Forall (fun e => exists j s,
                              i <= j /\ snd e = cur ++ (48 + j) :: s)
                    (codesOfChildren kids cur i));
      [|apply G; lia].
    clear Hsz.
    induction IH as [|k kids Hk _ IHkids]; intros i Hi Hb.
    { split; constructor. }
    inversion Hkids; subst.
    unfold size in Hb. simpl length in Hb.
    destruct (IHkids ltac:(assumption) (i + 1) ltac:(lia)
                ltac:(unfold size; lia)) as [Hfop Hrest].
    assert (Hfirst : Forall (fun e => exists s,
                                 snd e = cur ++ (48 + i) :: s)
                       (codesOf k (cur ++ toString i))).
    { eapply Forall_impl;
        [|apply (codesOf_extends k (cur ++ toString i))].
      - intros e [s Hs]. exists s.
        rewrite Hs, toString_digit, <- app_assoc by lia. reflexivity.
      - intros E. apply app_eq_nil in E as [_ E].
        rewrite toString_digit in E by lia. discriminate. }
    simpl. split.
    + apply ForallOrdPairs_app; [apply Hk; assumption | exact Hfop |].
      intros e1 e2 Hin1 Hin2.
      rewrite Forall_forall in Hfirst, Hrest.
      destruct (Hfirst _ Hin1) as [s1 E1].
      destruct (Hrest _ Hin2) as (j & s2 & Hj & E2).
      destruct e1 as [k1 v1], e2 as [k2 v2]. cbn [snd] in E1, E2.
      unfold incomparableCodes. cbn [snd]. rewrite E1, E2.
      apply incomparable_diverge. lia.
    + apply Forall_app. split.
      * eapply Forall_impl; [|exact Hfirst].
        intros e [s Hs]. exists i, s. split; [lia | exact Hs].
      * eapply Forall_impl; [|exact Hrest].
        intros e (j & s & Hj & Hs). exists j, s. split; [lia | exact Hs].
Qed.

(** Entries of the installed table under different symbols have
    incomparable codes. *)
Lemma tableOf_prefix_free root e1 e2 :
  wellFormed src m root ->
  In e1 (tableOf root) -> In e2 (tableOf root) -> fst e1 <> fst e2 ->
  incomparable (snd e1) (snd e2).
Proof.
  intros Hwf H1 H2 Hne.
  destruct e1 as [k1 v1], e2 as [k2 v2].
  apply tableOf_In in H1, H2.
  destruct (ForallOrdPairs_In (codesOf_prefix_free root Hwf []) _ _ H1 H2)
    as [E | [H | H]].
  - simpl in Hne. congruence.
  - exact H.
  - apply incomparable_sym. exact H.
Qed.

Lemma tableOf_digits root k v :
  wellFormed src m root -> In (k, v) (tableOf root) -> isDigits m v.
Proof.
  intros Hwf H. apply tableOf_In in H.
  pose proof (codesOf_digits root Hwf [] ltac:(constructor)) as Hd.
  rewrite Forall_forall in Hd. apply (Hd _ H).
Qed.
End CodeFacts.

(** ** Decoding a payload against its table *)

Section DecodeFacts.
Variable m : Z.
Variable table : jsMap jsstring.
Hypothesis table_NoDup : NoDup (keys table).
Hypothesis table_prefix_free :
  forall e1 e2, In e1 table -> In e2 table -> fst e1 <> fst e2 ->
                incomparable (snd e1) (snd e2).
Hypothesis table_digits : forall k v, In (k, v) table -> isDigits m v.

Lemma leafAt_code c v : In (c, v) table -> leafAt table v = Some c.
Proof.
  intros Hin. unfold leafAt.
  destruct (find (fun e => str_eqb (snd e) v) table) as [[c' v']|] eqn:E.
  - apply find_some in E as [Hin' Heq]. apply str_eqb_eq in Heq.
    simpl in Heq. subst v'.
    destruct (list_eq_dec Z.eq_dec c' c) as [->|Hne]; [reflexivity|].
    destruct (table_prefix_free _ _ Hin' Hin Hne) as [H _].
    simpl in H. rewrite startsWith_refl in H. discriminate.
  - apply find_none with (x := (c, v)) in E; [|exact Hin].
    simpl in E. rewrite str_eqb_refl in E. discriminate.
Qed.

Lemma leafAt_inside c p s :
  In (c, p ++ s) table -> s <> [] -> leafAt table p = None.
Proof.
  intros Hin Hs. unfold leafAt.
  destruct (find (fun e => str_eqb (snd e) p) table) as [[c' v']|] eqn:E;
    [|reflexivity].
  apply find_some in E as [Hin' Heq]. apply str_eqb_eq in Heq.
  simpl in Heq. subst v'. exfalso.
  destruct (list_eq_dec Z.eq_dec c' c) as [->|Hne].
  - pose proof (In_get _ _ _ table_NoDup Hin) as G1.
    pose proof (In_get _ _ _ table_NoDup Hin') as G2.
    rewrite G1 in G2. injection G2 as G2.
    rewrite <- (app_nil_r p) in G2 at 2.
    apply app_inv_head in G2. congruence.
  - destruct (table_prefix_free _ _ Hin' Hin Hne) as [_ H].
    simpl in H.
    assert (startsWith (p ++ s) p = true)
      by (apply startsWith_app; eauto).
    congruence.
Qed.

Lemma onTrie_inside c p s : In (c, p ++ s) table -> onTrie table p = true.
Proof.
  intros Hin. unfold onTrie. apply existsb_exists.
  exists (c, p ++ s). split; [exact Hin|].
  apply startsWith_app. simpl. eauto.
Qed.

(** Reading the rest [s] of a code from position [p] of the trie emits
    its symbol and returns to the root. *)
Lemma decodeFrom_code c s :
  forall p rest offset out,
    In (c, p ++ s) table -> s <> [] ->
    decodeFrom m table (s ++ rest) p offset out =
    decodeFrom m table rest [] (offset + Z.of_nat (length s)) (out ++ [c]).
Proof.
  induction s as [|d s IH]; intros p rest offset out Hin Hs;
    [congruence|].
  assert (Hd : isDigitBelow m d = true).
  { pose proof (table_digits _ _ Hin) as Hv.
    apply Forall_app in Hv as [_ Hv]. inversion Hv; assumption. }
  assert (Hin' : In (c, (p ++ [d]) ++ s) table)
    by (rewrite <- app_assoc; exact Hin).
  cbn [decodeFrom app]. rewrite Hd. cbn [negb].
  destruct s as [|d' s].
  - rewrite app_nil_r in Hin'. rewrite (leafAt_code c _ Hin').
    reflexivity.
  - rewrite (leafAt_inside c _ (d' :: s) Hin') by discriminate.
    rewrite (onTrie_inside c _ (d' :: s) Hin').
    rewrite (IH (p ++ [d]) rest (offset + 1) out Hin') by discriminate.
    f_equal. cbn [length]. lia.
Qed.

Lemma decodeFrom_symbols symbols :
  (forall c, In c symbols ->
             exists code, get c table = Some code /\ code <> []) ->
  forall offset out,
    decodeFrom m table (concat (map (codeOrEmpty table) symbols)) []
      offset out
    = Decoded (out ++ symbols).
Proof.
  induction symbols as [|c symbols IH]; intros Hall offset out.
  - simpl. rewrite app_nil_r. reflexivity.
  - destruct (Hall c (or_introl eq_refl)) as (code & Hget & Hne).
    cbn [map concat]. unfold codeOrEmpty at 1. rewrite Hget.
    rewrite (decodeFrom_code c code [] _ offset out);
      [|apply get_In; exact Hget | exact Hne].
    rewrite IH by (intros c' Hc'; apply Hall; right; exact Hc').
    rewrite <- app_assoc. reflexivity.
Qed.
End DecodeFacts.

(** * The stated properties *)

(** ** Completeness of the code table *)

(** C1.  For every input text and every branching factor M with
    2 <= M <= 5, the code table installed by [encode] holds exactly one
    entry for each distinct symbol of the input, and the code of that entry
    is a non-empty string of digits below M.  (For [src/App.tsx] and a
    non-empty text the table moreover has no other key.) *)
Theorem code_table_complete localeCompare src fuel st text m :
  2 <= m <= 5 -> (fuelFor text m <= fuel)%nat ->
  exists st' payload,
    encode localeCompare src fuel st text m = Some (st', payload) /\
    (forall c, In c (stringIterator text) ->
       exists code,
         filter (fun e => str_eqb (fst e) c) (huffmanCodes st') = [(c, code)]
         /\ code <> [] /\ isDigits m code) /\
    (src = AppTsx -> text <> [] ->
     forall k, In k (keys (huffmanCodes st')) -> In k (stringIterator text)).
Proof.
  intros Hm Hfuel.
  destruct text as [|a text].
  { exists st, []. split; [reflexivity|].
    split; [intros c []|]. intros _ H. congruence. }
  destruct (encode_result localeCompare src m ltac:(lia) fuel st (a :: text)
              ltac:(discriminate) Hfuel)
    as (root & _ & Hwf & Hperm & Henc).
  eexists _, _. split; [exact Henc|]. cbn [huffmanCodes]. split.
  - intros c Hc.
    destruct (tableOf_symbol src m root _ c Hperm Hc)
      as (code & Hin & _ & Hne).
    exists code. split; [|split].
    + apply unique_entry; [apply tableOf_NoDup | exact Hin].
    + exact Hne.
    + eapply tableOf_digits; [|exact Hwf | exact Hin]. lia.
  - intros -> _ k Hk.
    apply tableOf_keys in Hk.
    apply (Permutation_in _ Hperm) in Hk.
    rewrite dummyKeys_AppTsx, app_nil_r in Hk.
    apply calculateFrequencies_keys. exact Hk.
Qed.

Lemma code_table_complete_witness :
  2 <= 3 <= 5 /\
  (fuelFor (lit "abcd") 3 <= 7)%nat /\
  exists st' payload,
    encode codeUnitCompare AppTsx 7 initialState (lit "abcd") 3
      = Some (st', payload) /\
    (forall c, In c (stringIterator (lit "abcd")) ->
       exists code,
         filter (fun e => str_eqb (fst e) c) (huffmanCodes st') = [(c, code)]
         /\ code <> [] /\ isDigits 3 code) /\
    (AppTsx = AppTsx -> lit "abcd" <> [] ->
     forall k, In k (keys (huffmanCodes st')) ->
               In k (stringIterator (lit "abcd"))).
Proof.
  split; [lia|]. split; [vm_compute; lia|].
  apply (code_table_complete codeUnitCompare AppTsx 7 initialState
           (lit "abcd") 3); [lia | vm_compute; lia].
Defined.

(** ** Prefix-freedom *)

(** C2, as stated, fails: with M = 11 the eleven children of the root are
    numbered "0" to "10", and "1" is a prefix of "10". *)
Lemma prefix_freedom_fails_at_11 :
  exists st' payload,
    encode codeUnitCompare AppTsx 22 initialState (lit "abcdefghijk") 11
      = Some (st', payload) /\
    In (lit "b", lit "1") (huffmanCodes st') /\
    In (lit "k", lit "10") (huffmanCodes st') /\
    startsWith (lit "10") (lit "1") = true.
Proof.
  eexists _, _. split; [vm_compute; reflexivity|].
  vm_compute. intuition.
Qed.

(** C2, amended.  For every non-empty input text and every M with
    2 <= M <= 10, the codes of the resulting table are prefix-free: the
    code of one entry is never a prefix of the code of another. *)
Theorem code_table_prefix_free localeCompare src fuel st text m :
  2 <= m <= 10 -> text <> [] -> (fuelFor text m <= fuel)%nat ->
  exists st' payload,
    encode localeCompare src fuel st text m = Some (st', payload) /\
    forall e1 e2,
      In e1 (huffmanCodes st') -> In e2 (huffmanCodes st') ->
      fst e1 <> fst e2 ->
      startsWith (snd e2) (snd e1) = false.
Proof.
  intros Hm Hne Hfuel.
  destruct (encode_result localeCompare src m ltac:(lia) fuel st text
              Hne Hfuel)
    as (root & _ & Hwf & _ & Henc).
  eexists _, _. split; [exact Henc|]. cbn [huffmanCodes].
  intros e1 e2 H1 H2 Hdiff.
  destruct (tableOf_prefix_free src m Hm root e1 e2 Hwf H1 H2 Hdiff)
    as [_ H].
  exact H.
Qed.

Lemma code_table_prefix_free_witness :
  2 <= 3 <= 10 /\ lit "abcd" <> [] /\
  (fuelFor (lit "abcd") 3 <= 7)%nat /\
  exists st' payload,
    encode codeUnitCompare Part000 7 initialState (lit "abcd") 3
      = Some (st', payload) /\
    forall e1 e2,
      In e1 (huffmanCodes st') -> In e2 (huffmanCodes st') ->
      fst e1 <> fst e2 ->
      startsWith (snd e2) (snd e1) = false.
Proof.
  split; [lia|]. split; [discriminate|]. split; [vm_compute; lia|].
  apply (code_table_prefix_free codeUnitCompare Part000 7 initialState
           (lit "abcd") 3); [lia | discriminate | vm_compute; lia].
Defined.

(** ** Padding *)

(** C3.  For all integers N >= 2 and M >= 2 the padding count, which is 0
    when (N-1) mod (M-1) = 0 and (M-1) - ((N-1) mod (M-1)) otherwise,
    satisfies (N + requiredPadding(N,M) - 1) mod (M-1) = 0. *)
Theorem padding_correct (N M : Z) :
  2 <= N -> 2 <= M ->
  calculateRequiredDummies N M =
    (if (N - 1) mod (M - 1) =? 0 then 0 else (M - 1) - (N - 1) mod (M - 1))
  /\ (N + calculateRequiredDummies N M - 1) mod (M - 1) = 0.
Proof.
  intros HN HM. split.
  - unfold calculateRequiredDummies.
    rewrite Z.rem_mod_nonneg by lia. reflexivity.
  - apply calculateRequiredDummies_mod; lia.
Qed.

Lemma padding_correct_witness :
  2 <= 4 /\ 2 <= 3 /\
  calculateRequiredDummies 4 3 =
    (if (4 - 1) mod (3 - 1) =? 0 then 0 else (3 - 1) - (4 - 1) mod (3 - 1))
  /\ (4 + calculateRequiredDummies 4 3 - 1) mod (3 - 1) = 0.
Proof.
  split; [lia|]. split; [lia|].
  apply (padding_correct 4 3); lia.
Defined.

(** ** Dummy leaves *)

(** Every dummy leaf of a built tree has weight 0 and no children, in both
    copies of the program. *)
Lemma dummy_leaves_weigh_nothing localeCompare src fuel text m :
  2 <= m -> text <> [] -> (fuelFor text m <= fuel)%nat ->
  exists root,
    generateMaryTree localeCompare src fuel (calculateFrequencies text) m
      = Some (Some root) /\
    forall x i,
      In x (subnodes root) -> data x = dummyName src i ->
      freq x = 0 /\ children x = [].
Proof.
  intros Hm Hne Hfuel.
  destruct (encode_result localeCompare src m Hm fuel initialState text
              Hne Hfuel)
    as (root & Hgen & Hwf & _ & _).
  exists root. split; [exact Hgen|]. intros x i Hx Hd.
  pose proof (wellFormed_subnodes src m root Hwf) as Hall.
  rewrite Forall_forall in Hall.
  eapply wellFormed_dummy; [apply Hall; exact Hx | exact Hd].
Qed.

(** In [src/App.tsx] no dummy leaf has an entry in the code table. *)
Lemma dummy_leaves_have_no_code_AppTsx localeCompare fuel st text m :
  2 <= m -> text <> [] -> (fuelFor text m <= fuel)%nat ->
  exists st' payload,
    encode localeCompare AppTsx fuel st text m = Some (st', payload) /\
    forall i, ~ In (dummyName AppTsx i) (keys (huffmanCodes st')).
Proof.
  intros Hm Hne Hfuel.
  destruct (encode_result localeCompare AppTsx m Hm fuel st text Hne Hfuel)
    as (root & _ & _ & Hperm & Henc).
  eexists _, _. split; [exact Henc|]. cbn [huffmanCodes].
  intros i Hin. apply tableOf_keys in Hin.
  apply (Permutation_in _ Hperm) in Hin.
  rewrite dummyKeys_AppTsx, app_nil_r in Hin.
  pose proof (calculateFrequencies_symbols text) as Hs.
  rewrite Forall_forall in Hs.
  eapply symbol_not_dummyName; [apply Hs; exact Hin | reflexivity].
Qed.

(** In either copy, a key of the code table is a symbol of the text or the
    name of a dummy leaf. *)
Lemma code_table_keys localeCompare src fuel st text m :
  2 <= m -> text <> [] -> (fuelFor text m <= fuel)%nat ->
  exists st' payload,
    encode localeCompare src fuel st text m = Some (st', payload) /\
    forall k, In k (keys (huffmanCodes st')) ->
              In k (stringIterator text) \/ exists i, k = dummyName src i.
Proof.
  intros Hm Hne Hfuel.
  destruct (encode_result localeCompare src m Hm fuel st text Hne Hfuel)
    as (root & _ & _ & Hperm & Henc).
  eexists _, _. split; [exact Henc|]. cbn [huffmanCodes].
  intros k Hin. apply tableOf_keys in Hin.
  apply (Permutation_in _ Hperm) in Hin.
  apply in_app_or in Hin as [Hin | Hin].
  - left. apply calculateFrequencies_keys. exact Hin.
  - right. pose proof (dummyKeys_names src m (calculateFrequencies text)) as Hd.
    rewrite Forall_forall in Hd. apply Hd. exact Hin.
Qed.

(** C4, on the later copy of the program: for "abcd" and M = 3 the one
    dummy leaf, named "z0", has weight 0 but is given the entry
    ("z0", "20") of the code table, since its name does not start with
    "dummy". *)
Lemma part000_dummy_leaf_gets_code :
  exists st' payload root,
    encode codeUnitCompare Part000 7 initialState (lit "abcd") 3
      = Some (st', payload) /\
    treeRoot st' = Some root /\
    In (Node (dummyName Part000 0) 0 []) (subnodes root) /\
    In (dummyName Part000 0, lit "20") (huffmanCodes st').
Proof.
  eexists _, _, _. split; [vm_compute; reflexivity|].
  split; [reflexivity|]. vm_compute. intuition.
Qed.

(** ** Determinism *)



(** ** Round trip *)

(** C6.  For every valid (input, M), that is 2 <= M <= 5, decoding the
    payload with the installed code table gives back the symbols of the
    input, one for one and in order, and these make up the input. *)
Theorem decode_encode_roundtrip localeCompare src fuel st text m :
  2 <= m <= 5 -> (fuelFor text m <= fuel)%nat ->
  exists st' payload,
    encode localeCompare src fuel st text m = Some (st', payload) /\
    decode m payload (huffmanCodes st') = Decoded (stringIterator text) /\
    concat (stringIterator text) = text.
Proof.
  intros Hm Hfuel.
  destruct text as [|a text].
  { exists st, []. repeat split. }
  set (t := a :: text) in *.
  destruct (encode_result localeCompare src m ltac:(lia) fuel st t
              ltac:(discriminate) Hfuel)
    as (root & _ & Hwf & Hperm & Henc).
  eexists _, _. split; [exact Henc|]. cbn [huffmanCodes].
  split; [|apply stringIterator_concat].
  unfold decode. rewrite concatCodes_concat.
  apply (decodeFrom_symbols m (tableOf root)) with (out := []).
  - apply tableOf_NoDup.
  - intros e1 e2 H1 H2 Hdiff.
    eapply (tableOf_prefix_free src m); try eassumption. lia.
  - intros k v Hin.
    eapply (tableOf_digits src m); try eassumption. lia.
  - intros c Hc.
    destruct (tableOf_symbol src m root t c Hperm Hc)
      as (code & _ & Hget & Hcode).
    eauto.
Qed.

Lemma decode_encode_roundtrip_witness :
  2 <= 2 <= 5 /\
  (fuelFor (lit "aabbbccccc") 2 <= 12)%nat /\
  exists st' payload,
    encode codeUnitCompare AppTsx 12 initialState (lit "aabbbccccc") 2
      = Some (st', payload) /\
    decode 2 payload (huffmanCodes st')
      = Decoded (stringIterator (lit "aabbbccccc")) /\
    concat (stringIterator (lit "aabbbccccc")) = lit "aabbbccccc".
Proof.
  split; [lia|]. split; [vm_compute; lia|].
  apply (decode_encode_roundtrip codeUnitCompare AppTsx 12 initialState
           (lit "aabbbccccc") 2); [lia | vm_compute; lia].
Defined.

(** ** The one-symbol input *)

(** C7.  For the input "aaaa" with M = 3 the encoder installs the code
    table {"a": "0"}, returns the payload "0000", and sets the compression
    ratio to 87.50, which is (32 - 4) / 32 * 100. *)
Theorem single_symbol_example localeCompare src fuel st :
  exists st',
    encode localeCompare src fuel st (lit "aaaa") 3 = Some (st', lit "0000") /\
    huffmanCodes st' = [(lit "a", lit "0")] /\
    frequencies st' = [(lit "a", 4)] /\
    compressionRatio st' = ratioOf 32 4 /\
    ratioOf 32 4 = Some 8750.
Proof.
  eexists. split; [reflexivity|]. cbn [huffmanCodes frequencies].
  repeat split; vm_compute; reflexivity.
Qed.

(** ** Arity of the tree *)

Lemma built_tree_shape localeCompare src fuel text m :
  2 <= m -> (2 <= length (calculateFrequencies text))%nat ->
  (fuelFor text m <= fuel)%nat ->
  exists root,
    generateMaryTree localeCompare src fuel (calculateFrequencies text) m
      = Some (Some root) /\
    wellFormed src m root /\ data root = lit "internal".
Proof.
  intros Hm Hlen Hfuel.
  assert (Hne : text <> []) by (intros ->; simpl in Hlen; lia).
  destruct (encode_result localeCompare src m Hm fuel initialState text
              Hne Hfuel)
    as (root & Hgen & Hwf & Hperm & _).
  exists root. split; [exact Hgen|]. split; [exact Hwf|].
  destruct (wellFormed_leaf_or_internal src m root Hwf) as [[_ Hk] | E];
    [|exact E].
  apply Permutation_length in Hperm.
  rewrite length_app in Hperm. unfold keys in Hperm at 1.
  rewrite length_map in Hperm. lia.
Qed.

(** Every internal node of a built tree, the root included, has exactly
    [m] children. *)
Lemma built_tree_full localeCompare src fuel text m :
  2 <= m -> (2 <= length (calculateFrequencies text))%nat ->
  (fuelFor text m <= fuel)%nat ->
  exists root,
    generateMaryTree localeCompare src fuel (calculateFrequencies text) m
      = Some (Some root) /\
    forall x, In x (subnodes root) -> data x = lit "internal" ->
              size (children x) = m.
Proof.
  intros Hm Hlen Hfuel.
  destruct (built_tree_shape localeCompare src fuel text m Hm Hlen Hfuel)
    as (root & Hgen & Hwf & _).
  exists root. split; [exact Hgen|]. intros x Hx Hd.
  pose proof (wellFormed_subnodes src m root Hwf) as Hall.
  rewrite Forall_forall in Hall.
  apply (wellFormed_internal src m); auto.
Qed.

(** C8.  For every input with at least two distinct symbols and every
    M >= 2 the built tree is a strict M-ary tree: every internal node below
    the root has exactly M children, and the root has M children too,
    unless it has fewer and the total initial leaf count (real and dummy)
    is below M. *)
Theorem tree_strictly_m_ary localeCompare src fuel text m :
  2 <= m -> (2 <= length (calculateFrequencies text))%nat ->
  (fuelFor text m <= fuel)%nat ->
  exists root,
    generateMaryTree localeCompare src fuel (calculateFrequencies text) m
      = Some (Some root) /\
    data root = lit "internal" /\
    (forall x, In x (flat_map subnodes (children root)) ->
               data x = lit "internal" -> size (children x) = m) /\
    (size (children root) = m \/
     (size (children root) < m /\
      size (paddedQueue localeCompare src (calculateFrequencies text) m) < m)).
Proof.
  intros Hm Hlen Hfuel.
  destruct (built_tree_shape localeCompare src fuel text m Hm Hlen Hfuel)
    as (root & Hgen & Hwf & Hroot).
  exists root. split; [exact Hgen|]. split; [exact Hroot|].
  pose proof (wellFormed_subnodes src m root Hwf) as Hall.
  rewrite Forall_forall in Hall. split.
  - intros x Hx Hd. apply (wellFormed_internal src m); [|exact Hd].
    apply Hall. destruct root as [d f kids]. simpl. right. exact Hx.
  - left. apply (wellFormed_internal src m); assumption.
Qed.

Lemma tree_strictly_m_ary_witness :
  2 <= 3 /\
  (2 <= length (calculateFrequencies (lit "abcd")))%nat /\
  (fuelFor (lit "abcd") 3 <= 7)%nat /\
  exists root,
    generateMaryTree codeUnitCompare AppTsx 7
      (calculateFrequencies (lit "abcd")) 3 = Some (Some root) /\
    data root = lit "internal" /\
    (forall x, In x (flat_map subnodes (children root)) ->
               data x = lit "internal" -> size (children x) = 3) /\
    (size (children root) = 3 \/
     (size (children root) < 3 /\
      size (paddedQueue codeUnitCompare AppTsx
              (calculateFrequencies (lit "abcd")) 3) < 3)).
Proof.
  split; [lia|]. split; [vm_compute; lia|]. split; [vm_compute; lia|].
  apply (tree_strictly_m_ary codeUnitCompare AppTsx 7 (lit "abcd") 3);
    [lia | vm_compute; lia | vm_compute; lia].
Defined.

(** ** Symbols without a code *)

(** The loop of [encode] taken by itself does not stop on a symbol that
    has no entry: on the table {"a": "0"} and the text "ab" it returns
    "0".  No run of [encode] hands it such a table, as the theorem below
    shows. *)
Lemma missing_symbol_is_skipped :
  get (lit "b") [(lit "a", lit "0")] = None /\
  concatCodes [(lit "a", lit "0")] (lit "ab") = lit "0" /\
  concatCodes [(lit "a", lit "0")] (lit "ab")
    = concatCodes [(lit "a", lit "0")] (lit "a").
Proof. repeat split. Qed.




(** ** The empty input *)

(** On the empty text [encode] returns the empty payload and writes no
    state at all. *)
Lemma encode_empty localeCompare src fuel st m :
  encode localeCompare src fuel st [] m = Some (st, []).
Proof. reflexivity. Qed.

(** Starting from the [useState] defaults, the empty text leaves an empty
    table and a ratio of 0. *)
Lemma encode_empty_from_initial localeCompare src fuel m :
  exists st',
    encodeEffect localeCompare src fuel initialState [] m = Some st' /\
    encodedText st' = [] /\ huffmanCodes st' = [] /\
    compressionRatio st' = Some 0 /\
    shownOriginalBits [] = 0 /\ shownCompressedBits st' = 0.
Proof. eexists. repeat split. Qed.

(** C10, on the running application: the first effect encodes the default
    input "aabbbccccc" with M = 3; when the input is then emptied, [encode]
    returns the empty payload, and the sizes shown are 0 and 0, but the
    code table still holds the three codes of the previous input and the
    ratio is still 87.50. *)
Lemma empty_input_keeps_previous_table localeCompare src :
  exists st1 st2,
    encodeEffect localeCompare src 13 initialState (lit "aabbbccccc") 3
      = Some st1 /\
    encodeEffect localeCompare src 13 st1 [] 3 = Some st2 /\
    encodedText st2 = [] /\
    shownOriginalBits [] = 0 /\ shownCompressedBits st2 = 0 /\
    huffmanCodes st2
      = [(lit "a", lit "0"); (lit "b", lit "1"); (lit "c", lit "2")] /\
    compressionRatio st2 = Some 8750.
Proof.
  eexists _, _. split; [vm_compute; reflexivity|].
  split; [reflexivity|]. repeat split.
Qed.

(** ** Evaluated examples *)

(** "aabbbccccc" with M = 2: the binary Huffman tree, where "c" (5
    occurrences) gets the one-digit code and "a", "b" two digits. *)
Example binary_example :
  exists st',
    encode codeUnitCompare AppTsx 12 initialState (lit "aabbbccccc") 2
      = Some (st', lit "101011111100000") /\
    huffmanCodes st'
      = [(lit "c", lit "0"); (lit "a", lit "10"); (lit "b", lit "11")] /\
    compressionRatio st' = Some 8125.
Proof. eexists. split; [vm_compute; reflexivity|]. split; reflexivity. Qed.

(** Four symbols with M = 3 in [src/App.tsx]: one dummy leaf, a root with
    three children, and no entry for the dummy. *)
Example padding_example :
  exists st',
    encode codeUnitCompare AppTsx 7 initialState (lit "abcd") 3
      = Some (st', lit "212201") /\
    huffmanCodes st'
      = [(lit "c", lit "0"); (lit "d", lit "1");
         (lit "a", lit "21"); (lit "b", lit "22")] /\
    calculateRequiredDummies 4 3 = 1.
Proof. eexists. split; [vm_compute; reflexivity|]. split; reflexivity. Qed.

(** The decoder rejects a digit equal to M, a truncated payload and a path
    that leaves the trie. *)
Example decode_rejects_digit_M :
  decode 2 (lit "2") [(lit "a", lit "0"); (lit "b", lit "1")]
  = DecodeError 0.
Proof. reflexivity. Qed.

Example decode_rejects_truncated :
  decode 2 (lit "01")
    [(lit "c", lit "0"); (lit "a", lit "10"); (lit "b", lit "11")]
  = DecodeError 2.
Proof. reflexivity. Qed.

Example decode_rejects_dummy_path :
  decode 3 (lit "20")
    [(lit "c", lit "0"); (lit "d", lit "1");
     (lit "a", lit "21"); (lit "b", lit "22")]
  = DecodeError 1.
Proof. reflexivity. Qed.

(** * Further properties of the code *)

(** ** The frequency table *)

Lemma orZero_Some n : orZero (Some n) = n.
Proof.
  unfold orZero. destruct (n =? 0) eqn:E; [|reflexivity].
  apply Z.eqb_eq in E. congruence.
Qed.

Lemma occurrences_nonneg c l : 0 <= occurrences c l.
Proof.
  induction l as [|x l IH]; simpl; [lia|].
  destruct (str_eqb x c); lia.
Qed.

Lemma occurrences_In c l : 0 < occurrences c l <-> In c l.
Proof.
  induction l as [|x l IH]; simpl; [split; [lia | tauto]|].
  pose proof (occurrences_nonneg c l).
  destruct (str_eqb x c) eqn:E.
  - apply str_eqb_eq in E. split; [auto | lia].
  - apply str_eqb_neq in E. rewrite <- IH. split; [intros; right; lia|].
    intros [? | ?]; [congruence | lia].
Qed.

(** The counting loop adds, for each symbol, its number of occurrences
    to what the map held. *)
Lemma counting_loop_get c l :
  forall m : jsMap Z,
    get c (fold_left
             (fun freq char => set char (orZero (get char freq) + 1) freq)
             l m) =
    if occurrences c l =? 0 then get c m
    else Some (orZero (get c m) + occurrences c l).
Proof.
  induction l as [|x l IH]; intros m; [reflexivity|].
  cbn [fold_left occurrences]. rewrite IH.
  pose proof (occurrences_nonneg c l) as Hn.
  destruct (str_eqb x c) eqn:E.
  - apply str_eqb_eq in E. subst x.
    rewrite get_set_same, orZero_Some.
    destruct (occurrences c l =? 0) eqn:E0.
    + apply Z.eqb_eq in E0. rewrite E0.
      destruct (1 + 0 =? 0) eqn:E1; [apply Z.eqb_eq in E1; lia|].
      f_equal; lia.
    + destruct (1 + occurrences c l =? 0) eqn:E1;
        [apply Z.eqb_eq in E1; lia|].
      f_equal; lia.
  - apply str_eqb_neq in E. rewrite get_set_other by congruence.
    rewrite Z.add_0_l. reflexivity.
Qed.

Lemma calculateFrequencies_get text c :
  get c (calculateFrequencies text) =
  (if occurrences c (stringIterator text) =? 0 then None
   else Some (occurrences c (stringIterator text)))
  /\ (In c (stringIterator text) <-> 1 <= occurrences c (stringIterator text)).
Proof.
  split.
  - unfold calculateFrequencies. rewrite counting_loop_get. simpl.
    reflexivity.
  - rewrite <- occurrences_In. lia.
Qed.

(** X1.  [calculateFrequencies] maps each symbol of the text to the number
    of times the string iterator yields it, which is at least 1, and has
    no entry for any other string. *)
Theorem frequencies_count text c :
  get c (calculateFrequencies text) =
  (if occurrences c (stringIterator text) =? 0 then None
   else Some (occurrences c (stringIterator text)))
  /\ (In c (stringIterator text) <-> 1 <= occurrences c (stringIterator text)).
Proof.
  intros. apply calculateFrequencies_get; assumption.
Qed.

Lemma weightedSum_set h c v :
  forall m : jsMap Z,
    weightedSum h (set c v m) =
    weightedSum h m + (v - orZero (get c m)) * h c.
Proof.
  unfold weightedSum.
  induction m as [|[k w] m IH]; cbn [set get fold_right fst snd].
  - change (orZero None) with 0. lia.
  - destruct (str_eqb k c) eqn:E; cbn [fold_right fst snd].
    + apply str_eqb_eq in E. subst k. rewrite orZero_Some. lia.
    + rewrite IH. lia.
Qed.

Lemma counting_loop_weightedSum h l :
  forall m : jsMap Z,
    weightedSum h
      (fold_left
         (fun freq char => set char (orZero (get char freq) + 1) freq)
         l m) =
    weightedSum h m + fold_right (fun x acc => h x + acc) 0 l.
Proof.
  induction l as [|x l IH]; intros m; simpl; [lia|].
  rewrite IH, weightedSum_set. lia.
Qed.

(** Summing over the table with multiplicities is summing over the
    symbols of the text. *)
Lemma frequencies_weightedSum h text :
  weightedSum h (calculateFrequencies text) =
  fold_right (fun x acc => h x + acc) 0 (stringIterator text).
Proof.
  unfold calculateFrequencies. rewrite counting_loop_weightedSum.
  reflexivity.
Qed.

Lemma sum_of_ones (l : list jsstring) :
  fold_right (fun _ acc => 1 + acc) 0 l = Z.of_nat (length l).
Proof.
  induction l as [|x l IH]; cbn [length fold_right]; [reflexivity|].
  rewrite IH. lia.
Qed.

Lemma calculateFrequencies_sum text :
  weightedSum (fun _ => 1) (calculateFrequencies text)
    = Z.of_nat (length (stringIterator text)) /\
  (Forall (fun u => isLeadSurrogate u = false) text ->
   weightedSum (fun _ => 1) (calculateFrequencies text)
     = Z.of_nat (length text)).
Proof.
  rewrite frequencies_weightedSum, sum_of_ones. split; [reflexivity|].
  intros H. f_equal.
  induction text as [|a|a b rest E IH|a b rest E IH]
    using stringIterator_ind.
  - reflexivity.
  - reflexivity.
  - inversion H as [|? ? Ha _]; subst. rewrite Ha in E. discriminate.
  - change (stringIterator (a :: b :: rest))
      with (if isLeadSurrogate a && isTrailSurrogate b
            then [a; b] :: stringIterator rest
            else [a] :: stringIterator (b :: rest)).
    rewrite E. inversion H; subst. simpl. f_equal. apply IH. assumption.
Qed.



Lemma keys_set_eq {V} (k : jsstring) (v : V) (m : jsMap V) :
  keys (set k v m) =
  if existsb (fun k' => str_eqb k' k) (keys m) then keys m
  else keys m ++ [k].
Proof.
  induction m as [|[k0 v0] m IH]; [reflexivity|].
  cbn [set keys map fst existsb].
  destruct (str_eqb k0 k) eqn:E; cbn [orb map fst].
  - reflexivity.
  - fold (keys (set k v m)). fold (keys m). rewrite IH.
    destruct (existsb (fun k' => str_eqb k' k) (keys m)); reflexivity.
Qed.

Lemma filter_filter_and {A} (p q : A -> bool) (l : list A) :
  filter p (filter q l) = filter (fun y => q y && p y) l.
Proof.
  induction l as [|x l IH]; [reflexivity|]. simpl.
  destruct (q x); simpl; [destruct (p x)|]; rewrite IH; reflexivity.
Qed.

Lemma counting_loop_keys l :
  forall m : jsMap Z,
    keys (fold_left
            (fun freq char => set char (orZero (get char freq) + 1) freq)
            l m) =
    keys m ++
    filter (fun y => negb (existsb (fun k => str_eqb k y) (keys m)))
      (firstOccurrences l).
Proof.
  induction l as [|x l IH]; intros m.
  - simpl. rewrite app_nil_r. reflexivity.
  - cbn [fold_left firstOccurrences filter]. rewrite IH, keys_set_eq.
    destruct (existsb (fun k => str_eqb k x) (keys m)) eqn:E;
      cbn [negb].
    + f_equal. rewrite filter_filter_and. apply filter_ext. intros y.
      destruct (str_eqb y x) eqn:Eyx; [|reflexivity].
      apply str_eqb_eq in Eyx. subst y. rewrite E. reflexivity.
    + rewrite <- app_assoc. cbn [app]. f_equal. f_equal.
      rewrite filter_filter_and. apply filter_ext. intros y.
      rewrite existsb_app. cbn [existsb]. rewrite orb_false_r.
      rewrite negb_orb, andb_comm. f_equal. f_equal.
      destruct (str_eqb x y) eqn:E1, (str_eqb y x) eqn:E2;
        try reflexivity.
      * apply str_eqb_eq in E1. subst. rewrite str_eqb_refl in E2.
        discriminate.
      * apply str_eqb_eq in E2. subst. rewrite str_eqb_refl in E1.
        discriminate.
Qed.

(** X3.  The entries of [calculateFrequencies] come in the order in which
    the symbols first occur in the text, one entry per symbol; this is the
    order in which [generateMaryTree] enqueues the leaves. *)
Theorem frequencies_order text :
  keys (calculateFrequencies text) = firstOccurrences (stringIterator text)
  /\ NoDup (keys (calculateFrequencies text)).
Proof.
  split; [|apply calculateFrequencies_NoDup].
  unfold calculateFrequencies. rewrite counting_loop_keys.
  cbn [keys map app existsb negb].
  induction (firstOccurrences (stringIterator text)) as [|x l IH];
    [reflexivity|].
  simpl. f_equal. exact IH.
Qed.

(** ** The priority queue *)

(** X4.  Whatever the comparator, [enqueue] neither loses nor duplicates a
    node: the queue afterwards holds the old nodes and the new one, and is
    one longer; [dequeue] then removes one node again. *)
Theorem enqueue_keeps_every_node localeCompare node
  (nodes : list HuffmanTreeNode) :
  Permutation (enqueue localeCompare node nodes) (node :: nodes) /\
  size (enqueue localeCompare node nodes) = size nodes + 1 /\
  exists first rest,
    dequeue (enqueue localeCompare node nodes) = (Some first, rest) /\
    Permutation (first :: rest) (node :: nodes) /\
    size rest = size nodes.
Proof.
  pose proof (enqueue_perm localeCompare node nodes) as Hp.
  split; [exact Hp|]. split; [apply size_enqueue|].
  destruct (enqueue localeCompare node nodes) as [|first rest] eqn:E.
  - apply Permutation_length in Hp. discriminate.
  - exists first, rest. split; [reflexivity|]. split; [exact Hp|].
    apply Permutation_length in Hp. unfold size. simpl in Hp. lia.
Qed.

Section SortedQueue.
Variable localeCompare : jsstring -> jsstring -> Z.
Hypothesis consistent : consistentComparator localeCompare.

Lemma compareNodes_le a b :
  compareNodes localeCompare a b <= 0 <->
  freq a < freq b \/
  (freq a = freq b /\ localeCompare (data a) (data b) <= 0).
Proof.
  unfold compareNodes. destruct (freq a =? freq b) eqn:E; cbn [negb].
  - apply Z.eqb_eq in E. lia.
  - apply Z.eqb_neq in E. lia.
Qed.

Lemma compareNodes_lt a b :
  compareNodes localeCompare a b < 0 <->
  freq a < freq b \/
  (freq a = freq b /\ localeCompare (data a) (data b) < 0).
Proof.
  unfold compareNodes. destruct (freq a =? freq b) eqn:E; cbn [negb].
  - apply Z.eqb_eq in E. lia.
  - apply Z.eqb_neq in E. lia.
Qed.

Lemma compareNodes_swap a b :
  compareNodes localeCompare a b <= 0 <->
  ~ compareNodes localeCompare b a < 0.
Proof.
  destruct consistent as [Hs _].
  rewrite compareNodes_le, compareNodes_lt.
  specialize (Hs (data a) (data b)).
  destruct (Z.sgn_spec (localeCompare (data a) (data b)))
    as [[? ?] | [[? ?] | [? ?]]],
     (Z.sgn_spec (localeCompare (data b) (data a)))
    as [[? ?] | [[? ?] | [? ?]]]; lia.
Qed.

Lemma compareNodes_trans a b c :
  compareNodes localeCompare a b <= 0 ->
  compareNodes localeCompare b c <= 0 ->
  compareNodes localeCompare a c <= 0.
Proof.
  destruct consistent as [_ Ht].
  rewrite !compareNodes_le.
  intros [H1 | [H1 L1]] [H2 | [H2 L2]]; try lia.
  right. split; [lia|]. eapply Ht; eassumption.
Qed.

Lemma compareNodes_lt_le_trans a b c :
  compareNodes localeCompare a b < 0 ->
  compareNodes localeCompare b c <= 0 ->
  compareNodes localeCompare a c < 0.
Proof.
  intros H1 H2.
  destruct (Z.lt_ge_cases (compareNodes localeCompare a c) 0) as [|H3];
    [assumption|].
  exfalso.
  assert (Hca : compareNodes localeCompare c a <= 0)
    by (apply compareNodes_swap; lia).
  assert (Hba : compareNodes localeCompare b a <= 0)
    by (eapply compareNodes_trans; eassumption).
  apply compareNodes_swap in Hba. lia.
Qed.

Lemma insertSorted_ascending x l :
  ascending localeCompare l ->
  ascending localeCompare (insertSorted localeCompare x l).
Proof.
  unfold ascending. intros H.
  induction H as [|y l Hl IH Hy]; simpl.
  - repeat constructor.
  - destruct (compareNodes localeCompare x y <? 0) eqn:E.
    + apply Z.ltb_lt in E. constructor; [constructor; assumption|].
      constructor; [lia|].
      eapply Forall_impl; [|exact Hy].
      intros z Hz. eapply compareNodes_trans; [|exact Hz]. lia.
    + apply Z.ltb_ge in E. constructor; [exact IH|].
      eapply Permutation_Forall;
        [symmetry; apply insertSorted_perm|].
      constructor; [|exact Hy].
      apply compareNodes_swap. lia.
Qed.

Lemma sort_ascending l : ascending localeCompare (sort localeCompare l).
Proof.
  unfold sort.
  enough (G : forall l acc,
             ascending localeCompare acc ->
             ascending localeCompare
               (fold_left (fun acc x => insertSorted localeCompare x acc)
                  l acc)) by (apply G; constructor).
  clear l. induction l as [|x l IH]; intros acc H; simpl; [exact H|].
  apply IH, insertSorted_ascending, H.
Qed.

Lemma insertSorted_last x l :
  Forall (fun y => compareNodes localeCompare y x <= 0) l ->
  insertSorted localeCompare x l = l ++ [x].
Proof.
  induction 1 as [|y l Hy _ IH]; simpl; [reflexivity|].
  apply compareNodes_swap in Hy.
  destruct (compareNodes localeCompare x y <? 0) eqn:E;
    [apply Z.ltb_lt in E; lia|].
  rewrite IH. reflexivity.
Qed.

Lemma ascending_app_cons acc x l :
  ascending localeCompare (acc ++ x :: l) ->
  Forall (fun y => compareNodes localeCompare y x <= 0) acc.
Proof.
  unfold ascending. induction acc as [|y acc IH]; simpl; intros H;
    [constructor|].
  inversion H as [|? ? Hs Hall]; subst.
  constructor; [|apply IH; exact Hs].
  rewrite Forall_forall in Hall. apply Hall.
  apply in_or_app. right. left. reflexivity.
Qed.

(** Sorting a queue that is in order changes nothing. *)
Lemma sort_ascending_id l :
  ascending localeCompare l -> sort localeCompare l = l.
Proof.
  unfold sort.
  enough (G : forall l acc,
             ascending localeCompare (acc ++ l) ->
             fold_left (fun acc x => insertSorted localeCompare x acc) l acc
             = acc ++ l) by apply (G l []).
  clear l. induction l as [|x l IH]; intros acc H; simpl.
  - rewrite app_nil_r. reflexivity.
  - rewrite insertSorted_last by (eapply ascending_app_cons; exact H).
    rewrite IH; rewrite <- app_assoc; [reflexivity | exact H].
Qed.

Lemma enqueue_insertSorted x l :
  ascending localeCompare l ->
  enqueue localeCompare x l = insertSorted localeCompare x l.
Proof.
  intros H. unfold enqueue, sort. rewrite fold_left_app. simpl.
  fold (sort localeCompare l). rewrite sort_ascending_id by exact H.
  reflexivity.
Qed.

Lemma insertSorted_split x l :
  ascending localeCompare l ->
  exists l1 l2,
    l = l1 ++ l2 /\ insertSorted localeCompare x l = l1 ++ x :: l2 /\
    Forall (fun y => compareNodes localeCompare y x <= 0) l1 /\
    Forall (fun y => compareNodes localeCompare x y < 0) l2.
Proof.
  unfold ascending. intros H.
  induction H as [|y l Hl IH Hy]; simpl.
  - exists [], []. repeat split; constructor.
  - destruct (compareNodes localeCompare x y <? 0) eqn:E.
    + apply Z.ltb_lt in E. exists [], (y :: l).
      repeat split; [constructor|].
      constructor; [exact E|].
      eapply Forall_impl; [|exact Hy].
      intros z Hz. eapply compareNodes_lt_le_trans; eassumption.
    + apply Z.ltb_ge in E.
      destruct IH as (l1 & l2 & -> & -> & H1 & H2).
      exists (y :: l1), l2. repeat split; [|exact H2].
      constructor; [|exact H1]. apply compareNodes_swap. lia.
Qed.
End SortedQueue.

Lemma codeUnitCompare_sgn a :
  forall b, Z.sgn (codeUnitCompare b a) = - Z.sgn (codeUnitCompare a b).
Proof.
  induction a as [|x a IH]; intros [|y b]; try reflexivity.
  cbn [codeUnitCompare].
  destruct (Z.ltb_spec x y), (Z.ltb_spec y x); try reflexivity; try lia.
  apply IH.
Qed.

Lemma codeUnitCompare_trans a :
  forall b c,
    codeUnitCompare a b <= 0 -> codeUnitCompare b c <= 0 ->
    codeUnitCompare a c <= 0.
Proof.
  induction a as [|x a IH]; intros [|y b] [|z c]; cbn [codeUnitCompare];
    try lia.
  destruct (Z.ltb_spec x y), (Z.ltb_spec y x), (Z.ltb_spec y z),
    (Z.ltb_spec z y), (Z.ltb_spec x z), (Z.ltb_spec z x);
    try lia.
  apply IH.
Qed.

Lemma codeUnitCompare_consistent : consistentComparator codeUnitCompare.
Proof.
  split.
  - intros a b. apply codeUnitCompare_sgn.
  - intros a b c. apply codeUnitCompare_trans.
Qed.

(** X5.  With a consistent comparator, the queue is in ascending order
    after every [enqueue], whatever it was before, so that the node which
    [dequeue] then returns compares below or equal to every node left, and
    in particular has the least weight. *)
Theorem enqueue_sorts localeCompare node (nodes : list HuffmanTreeNode) :
  consistentComparator localeCompare ->
  ascending localeCompare (enqueue localeCompare node nodes) /\
  forall first rest,
    dequeue (enqueue localeCompare node nodes) = (Some first, rest) ->
    forall y, In y rest ->
      compareNodes localeCompare first y <= 0 /\ freq first <= freq y.
Proof.
  intros Hc.
  pose proof (sort_ascending localeCompare Hc (nodes ++ [node])) as Hs.
  fold (enqueue localeCompare node nodes) in Hs.
  split; [exact Hs|].
  intros first rest Hd y Hy.
  destruct (enqueue localeCompare node nodes) as [|x l]; [discriminate|].
  injection Hd as -> ->.
  inversion Hs as [|? ? _ Hall]; subst.
  rewrite Forall_forall in Hall. specialize (Hall y Hy).
  split; [exact Hall|].
  apply (compareNodes_le localeCompare) in Hall. lia.
Qed.

Lemma enqueue_sorts_witness :
  consistentComparator codeUnitCompare /\
  ascending codeUnitCompare
    (enqueue codeUnitCompare (Node (lit "a") 2 [])
       [Node (lit "c") 5 []; Node (lit "b") 3 []]) /\
  forall first rest,
    dequeue (enqueue codeUnitCompare (Node (lit "a") 2 [])
               [Node (lit "c") 5 []; Node (lit "b") 3 []])
      = (Some first, rest) ->
    forall y, In y rest ->
      compareNodes codeUnitCompare first y <= 0 /\ freq first <= freq y.
Proof.
  split; [exact codeUnitCompare_consistent|].
  apply (enqueue_sorts codeUnitCompare (Node (lit "a") 2 [])
           [Node (lit "c") 5 []; Node (lit "b") 3 []]).
  exact codeUnitCompare_consistent.
Defined.

(** X6.  With a consistent comparator, [enqueue] on a queue that is in
    order leaves the nodes already there in their order and puts the new
    node after every node that compares below or equal to it and before
    every node that compares above: among equals, first in, first out. *)
Theorem enqueue_is_stable localeCompare node (nodes : list HuffmanTreeNode) :
  consistentComparator localeCompare ->
  ascending localeCompare nodes ->
  exists before after,
    nodes = before ++ after /\
    enqueue localeCompare node nodes = before ++ node :: after /\
    Forall (fun y => compareNodes localeCompare y node <= 0) before /\
    Forall (fun y => compareNodes localeCompare node y < 0) after.
Proof.
  intros Hc Hs.
  rewrite (enqueue_insertSorted localeCompare Hc node nodes Hs).
  apply insertSorted_split; assumption.
Qed.

Lemma enqueue_is_stable_witness :
  consistentComparator codeUnitCompare /\
  ascending codeUnitCompare
    [Node (lit "a") 1 []; Node (lit "internal") 2 []; Node (lit "z") 2 []] /\
  exists before after,
    [Node (lit "a") 1 []; Node (lit "internal") 2 []; Node (lit "z") 2 []]
      = before ++ after /\
    enqueue codeUnitCompare (Node (lit "internal") 2 [])
      [Node (lit "a") 1 []; Node (lit "internal") 2 []; Node (lit "z") 2 []]
      = before ++ Node (lit "internal") 2 [] :: after /\
    Forall (fun y => compareNodes codeUnitCompare y
                       (Node (lit "internal") 2 []) <= 0) before /\
    Forall (fun y => compareNodes codeUnitCompare
                       (Node (lit "internal") 2 []) y < 0) after.
Proof.
  assert (Hs : ascending codeUnitCompare
                 [Node (lit "a") 1 []; Node (lit "internal") 2 [];
                  Node (lit "z") 2 []]).
  { repeat constructor; vm_compute; discriminate. }
  split; [exact codeUnitCompare_consistent|]. split; [exact Hs|].
  apply (enqueue_is_stable codeUnitCompare (Node (lit "internal") 2 [])
           [Node (lit "a") 1 []; Node (lit "internal") 2 [];
            Node (lit "z") 2 []]);
    [exact codeUnitCompare_consistent | exact Hs].
Defined.

(** ** Padding *)

(** X7.  For N >= 1 leaves and M >= 2 the padding lies between 0 and
    M - 2 (so it is 0 for M = 2), it makes (N + padding - 1) divisible by
    M - 1, and no smaller number of extra leaves does. *)
Theorem padding_is_least (N M : Z) :
  1 <= N -> 2 <= M ->
  0 <= calculateRequiredDummies N M <= M - 2 /\
  (N + calculateRequiredDummies N M - 1) mod (M - 1) = 0 /\
  (forall k, 0 <= k < calculateRequiredDummies N M ->
             (N + k - 1) mod (M - 1) <> 0).
Proof.
  intros HN HM.
  pose proof (calculateRequiredDummies_range N M HN HM) as Hr.
  split; [exact Hr|].
  split; [apply calculateRequiredDummies_mod; assumption|].
  unfold calculateRequiredDummies in *.
  rewrite Z.rem_mod_nonneg in * by lia.
  pose proof (Z.mod_pos_bound (N - 1) (M - 1) ltac:(lia)) as Hb.
  pose proof (Z.div_mod (N - 1) (M - 1) ltac:(lia)) as Hdm.
  destruct ((N - 1) mod (M - 1) =? 0) eqn:E; [lia|].
  apply Z.eqb_neq in E. intros k Hk.
  replace (N + k - 1)
    with (((N - 1) mod (M - 1) + k) + (N - 1) / (M - 1) * (M - 1)) by lia.
  rewrite Z.mod_add by lia. rewrite Z.mod_small by lia. lia.
Qed.

Lemma padding_is_least_witness :
  1 <= 5 /\ 2 <= 4 /\
  0 <= calculateRequiredDummies 5 4 <= 4 - 2 /\
  (5 + calculateRequiredDummies 5 4 - 1) mod (4 - 1) = 0 /\
  (forall k, 0 <= k < calculateRequiredDummies 5 4 ->
             (5 + k - 1) mod (4 - 1) <> 0).
Proof.
  split; [lia|]. split; [lia|]. apply (padding_is_least 5 4); lia.
Defined.

(** ** The tree *)

Lemma sumFreq_app l1 l2 : sumFreq (l1 ++ l2) = sumFreq l1 + sumFreq l2.
Proof.
  unfold sumFreq. induction l1 as [|x l1 IH]; simpl; [reflexivity|].
  rewrite IH. lia.
Qed.

Lemma sumFreq_perm l1 l2 : Permutation l1 l2 -> sumFreq l1 = sumFreq l2.
Proof.
  unfold sumFreq. induction 1; simpl; lia.
Qed.

Lemma sumFreq_leafNodes frequencies :
  sumFreq (leafNodes frequencies) = weightedSum (fun _ => 1) frequencies.
Proof.
  unfold sumFreq, weightedSum, leafNodes.
  induction frequencies as [|[c f] l IH]; simpl; [reflexivity|].
  rewrite IH. lia.
Qed.

Lemma sumFreq_dummyNodes src count : forall i, sumFreq (dummyNodes src count i) = 0.
Proof.
  unfold sumFreq. induction count as [|count IH]; intros i; simpl;
    [reflexivity|].
  rewrite IH. reflexivity.
Qed.

Lemma leavesOf_leafNodes frequencies :
  flat_map leavesOf (leafNodes frequencies) = leafNodes frequencies.
Proof.
  unfold leafNodes. induction frequencies as [|[c f] l IH]; simpl;
    [reflexivity|].
  rewrite IH. reflexivity.
Qed.

Lemma leavesOf_dummyNodes src count :
  forall i, flat_map leavesOf (dummyNodes src count i) = dummyNodes src count i.
Proof.
  induction count as [|count IH]; intros i; simpl; [reflexivity|].
  rewrite IH. reflexivity.
Qed.

Lemma dummyNodes_childless src count :
  forall i, Forall (fun t => children t = []) (dummyNodes src count i).
Proof.
  induction count as [|count IH]; intros i; cbn [dummyNodes];
    constructor; [reflexivity | apply IH].
Qed.

Section LoopFacts.
Variable localeCompare : jsstring -> jsstring -> Z.
Variable src : SourceFile.
Variable m : Z.
Hypothesis m_ge_2 : 2 <= m.
Variable K : list jsstring.

(** A property of the queue that every merge step keeps holds of the
    queue the loop ends on. *)
Lemma mergeLoop_preserves (P : list HuffmanTreeNode -> Prop) :
  (forall pq,
      invariant src m K pq -> m <= size pq -> P pq ->
      P (enqueue localeCompare
           (Node (lit "internal") (sumFreq (firstn (Z.to_nat m) pq))
              (firstn (Z.to_nat m) pq))
           (skipn (Z.to_nat m) pq))) ->
  forall fuel pq r,
    invariant src m K pq -> P pq ->
    mergeLoop localeCompare fuel m pq = Some r -> P r.
Proof.
  intros step. induction fuel as [|fuel IH]; intros pq r HI HP; simpl;
    [discriminate|].
  destruct (1 <? size pq) eqn:E; [|congruence].
  apply Z.ltb_lt in E.
  pose proof (invariant_full_merge src m m_ge_2 K pq HI E) as Hfull.
  destruct (mergeStep_invariant localeCompare src m m_ge_2 K pq HI E)
    as [HI' _].
  apply IH; [exact HI'|].
  rewrite (mergeStep_spec localeCompare m m_ge_2 pq Hfull).
  apply step; assumption.
Qed.

Lemma mergeLoop_sumFreq fuel pq r :
  invariant src m K pq ->
  mergeLoop localeCompare fuel m pq = Some r -> sumFreq r = sumFreq pq.
Proof.
  intros HI.
  apply (mergeLoop_preserves (fun q => sumFreq q = sumFreq pq));
    [|exact HI | reflexivity].
  intros q _ Hfull Hq.
  rewrite (sumFreq_perm _ _ (enqueue_perm localeCompare _ _)).
  change (sumFreq (?n :: ?l)) with (freq n + sumFreq l). cbn [freq].
  rewrite <- sumFreq_app, firstn_skipn. exact Hq.
Qed.

Lemma mergeLoop_leaves fuel pq r :
  invariant src m K pq ->
  mergeLoop localeCompare fuel m pq = Some r ->
  Permutation (flat_map leavesOf r) (flat_map leavesOf pq).
Proof.
  intros HI.
  apply (mergeLoop_preserves
           (fun q => Permutation (flat_map leavesOf q) (flat_map leavesOf pq)));
    [|exact HI | reflexivity].
  intros q _ Hfull Hq.
  rewrite (Permutation_flat_map leavesOf (enqueue_perm localeCompare _ _)).
  cbn [flat_map].
  assert (Hk : leavesOf
                 (Node (lit "internal") (sumFreq (firstn (Z.to_nat m) q))
                    (firstn (Z.to_nat m) q))
               = flat_map leavesOf (firstn (Z.to_nat m) q)).
  { destruct (firstn (Z.to_nat m) q) eqn:E; [|reflexivity].
    apply (f_equal (@length _)) in E. rewrite length_firstn in E.
    unfold size in Hfull. simpl in E. lia. }
  rewrite Hk, <- flat_map_app, firstn_skipn. exact Hq.
Qed.

Lemma mergeLoop_internalNodes fuel pq r :
  invariant src m K pq ->
  mergeLoop localeCompare fuel m pq = Some r ->
  Z.of_nat (length (flat_map internalNodes r)) * (m - 1) + size r =
  Z.of_nat (length (flat_map internalNodes pq)) * (m - 1) + size pq.
Proof.
  intros HI.
  apply (mergeLoop_preserves
           (fun q =>
              Z.of_nat (length (flat_map internalNodes q)) * (m - 1) + size q
              = Z.of_nat (length (flat_map internalNodes pq)) * (m - 1)
                + size pq));
    [|exact HI | reflexivity].
  intros q _ Hfull Hq.
  remember (firstn (Z.to_nat m) q) as kids eqn:Ekids.
  remember (skipn (Z.to_nat m) q) as rest eqn:Erest.
  assert (Hsplit : q = kids ++ rest)
    by (subst kids rest; symmetry; apply firstn_skipn).
  assert (Hlen : length kids = Z.to_nat m)
    by (subst kids; rewrite length_firstn; unfold size in Hfull; lia).
  assert (Hfilter : forall l,
             filter (fun x => match children x with
                              | [] => false
                              | _ :: _ => true
                              end) (flat_map subnodes l)
             = flat_map internalNodes l).
  { induction l as [|t l IH]; [reflexivity|].
    cbn [flat_map]. rewrite filter_app, IH. reflexivity. }
  assert (Hn : length (internalNodes (Node (lit "internal") (sumFreq kids) kids))
               = S (length (flat_map internalNodes kids))).
  { unfold internalNodes at 1. cbn [subnodes filter children].
    destruct kids as [|k kids]; [simpl in Hlen; lia|].
    cbn [length]. rewrite Hfilter. reflexivity. }
  rewrite size_enqueue.
  rewrite (Permutation_length
             (Permutation_flat_map internalNodes
                (enqueue_perm localeCompare _ _))).
  cbn [flat_map]. rewrite length_app, Hn, <- Hq, Hsplit.
  rewrite flat_map_app, length_app.
  unfold size. rewrite length_app. nia.
Qed.
End LoopFacts.

(** [generateMaryTree] on a non-empty table: the lone leaf, or the node
    the loop ends on. *)
Lemma generateMaryTree_cases localeCompare src m fuel frequencies :
  2 <= m ->
  Forall isSymbol (keys frequencies) ->
  (1 <= length frequencies)%nat ->
  (length frequencies + Z.to_nat m <= fuel)%nat ->
  exists root,
    generateMaryTree localeCompare src fuel frequencies m = Some (Some root) /\
    ((exists c f, frequencies = [(c, f)] /\ root = Node c f []) \/
     ((2 <= length frequencies)%nat /\
      invariant src m (keys frequencies ++ dummyKeys src m frequencies)
        (paddedQueue localeCompare src frequencies m) /\
      mergeLoop localeCompare fuel m
        (paddedQueue localeCompare src frequencies m) = Some [root])).
Proof.
  intros Hm Hsym Hlen Hfuel. unfold generateMaryTree.
  rewrite size_enqueueLeaves.
  destruct (Z.of_nat (length frequencies) =? 0) eqn:E0;
    [apply Z.eqb_eq in E0; lia|].
  destruct (Z.of_nat (length frequencies) =? 1) eqn:E1.
  - apply Z.eqb_eq in E1.
    destruct frequencies as [|[c f] [|e l]]; simpl in E1; try lia.
    exists (Node c f []). split; [reflexivity|]. left. eauto.
  - apply Z.eqb_neq in E1.
    pose proof (paddedQueue_invariant localeCompare src m Hm
                  frequencies Hsym Hlen) as HI.
    destruct (mergeLoop_result localeCompare src m Hm _ fuel _ HI)
      as (root & Hloop & _).
    { pose proof (paddedQueue_size localeCompare src m Hm
                    frequencies Hlen) as Hsz.
      pose proof (calculateRequiredDummies_range
                    (Z.of_nat (length frequencies)) m ltac:(lia) Hm).
      unfold size in Hsz. lia. }
    exists root. split; [rewrite Hloop; reflexivity|].
    right. split; [lia|]. split; [exact HI | exact Hloop].
Qed.

Lemma text_tree_cases localeCompare src m fuel text :
  2 <= m -> text <> [] -> (fuelFor text m <= fuel)%nat ->
  exists root,
    generateMaryTree localeCompare src fuel (calculateFrequencies text) m
      = Some (Some root) /\
    wellFormed src m root /\
    ((exists c f, calculateFrequencies text = [(c, f)] /\ root = Node c f [])
     \/
     ((2 <= length (calculateFrequencies text))%nat /\
      invariant src m
        (keys (calculateFrequencies text)
           ++ dummyKeys src m (calculateFrequencies text))
        (paddedQueue localeCompare src (calculateFrequencies text) m) /\
      mergeLoop localeCompare fuel m
        (paddedQueue localeCompare src (calculateFrequencies text) m)
        = Some [root])).
Proof.
  intros Hm Hne Hfuel.
  assert (Hf : (length (calculateFrequencies text) + Z.to_nat m <= fuel)%nat).
  { pose proof (calculateFrequencies_length text).
    unfold fuelFor in Hfuel. lia. }
  destruct (generateMaryTree_cases localeCompare src m fuel
              (calculateFrequencies text) Hm
              (calculateFrequencies_symbols text)
              (calculateFrequencies_nonempty text Hne) Hf)
    as (root & Hgen & Hcase).
  destruct (generateMaryTree_result localeCompare src m Hm fuel
              (calculateFrequencies text)
              (calculateFrequencies_symbols text)
              (calculateFrequencies_nonempty text Hne) Hf)
    as (root' & Hgen' & Hwf & _).
  rewrite Hgen in Hgen'. injection Hgen' as <-.
  exists root. auto.
Qed.

Lemma built_tree_weights localeCompare src fuel text m :
  2 <= m -> text <> [] -> (fuelFor text m <= fuel)%nat ->
  exists root,
    generateMaryTree localeCompare src fuel (calculateFrequencies text) m
      = Some (Some root) /\
    freq root = Z.of_nat (length (stringIterator text)) /\
    forall x, In x (subnodes root) -> children x <> [] ->
              freq x = sumFreq (children x).
Proof.
  intros Hm Hne Hfuel.
  destruct (text_tree_cases localeCompare src m fuel text Hm Hne Hfuel)
    as (root & Hgen & Hwf & Hcase).
  exists root. split; [exact Hgen|]. split.
  - destruct (calculateFrequencies_sum text) as [Htot _].
    destruct Hcase as [(c & f & Hfr & ->) | (_ & HI & Hloop)].
    + rewrite Hfr in Htot. cbn in Htot. cbn [freq]. lia.
    + pose proof (mergeLoop_sumFreq localeCompare src m Hm _ _ _ _ HI Hloop)
        as Hs.
      rewrite (sumFreq_perm _ _ (paddedQueue_perm localeCompare src m _))
        in Hs.
      rewrite sumFreq_app, sumFreq_leafNodes, sumFreq_dummyNodes, Htot in Hs.
      cbn in Hs. lia.
  - intros x Hx Hkids.
    pose proof (wellFormed_subnodes src m root Hwf) as Hall.
    rewrite Forall_forall in Hall. specialize (Hall x Hx).
    inversion Hall as [c f Hs | i | kids Hsz Hk]; subst x;
      cbn [children freq] in *; [congruence | congruence | reflexivity].
Qed.

(** X8.  The weight of the root of the built tree is the number of
    symbols of the text, and the weight of every node with children is the
    sum of the weights of its children. *)
Theorem tree_weights localeCompare src fuel text m :
  2 <= m -> text <> [] -> (fuelFor text m <= fuel)%nat ->
  exists root,
    generateMaryTree localeCompare src fuel (calculateFrequencies text) m
      = Some (Some root) /\
    freq root = Z.of_nat (length (stringIterator text)) /\
    forall x, In x (subnodes root) -> children x <> [] ->
              freq x = sumFreq (children x).
Proof.
  intros. apply built_tree_weights; assumption.
Qed.

Lemma tree_weights_witness :
  2 <= 3 /\ lit "abcd" <> [] /\ (fuelFor (lit "abcd") 3 <= 7)%nat /\
  exists root,
    generateMaryTree codeUnitCompare AppTsx 7
      (calculateFrequencies (lit "abcd")) 3 = Some (Some root) /\
    freq root = Z.of_nat (length (stringIterator (lit "abcd"))) /\
    forall x, In x (subnodes root) -> children x <> [] ->
              freq x = sumFreq (children x).
Proof.
  split; [lia|]. split; [discriminate|]. split; [vm_compute; lia|].
  apply (tree_weights codeUnitCompare AppTsx 7 (lit "abcd") 3);
    [lia | discriminate | vm_compute; lia].
Defined.

(** X9.  The leaves of the built tree are exactly one leaf per entry of
    the frequency table, carrying the symbol and its count, and as many
    zero-weight dummy leaves as [calculateRequiredDummies] asks for. *)
Theorem tree_leaves localeCompare src fuel text m :
  2 <= m -> text <> [] -> (fuelFor text m <= fuel)%nat ->
  exists root,
    generateMaryTree localeCompare src fuel (calculateFrequencies text) m
      = Some (Some root) /\
    Permutation (leavesOf root)
      (leafNodes (calculateFrequencies text) ++
       dummyNodes src
         (Z.to_nat
            (calculateRequiredDummies
               (Z.of_nat (length (calculateFrequencies text))) m))
         0).
Proof.
  intros Hm Hne Hfuel.
  destruct (text_tree_cases localeCompare src m fuel text Hm Hne Hfuel)
    as (root & Hgen & _ & Hcase).
  exists root. split; [exact Hgen|].
  destruct Hcase as [(c & f & Hfr & ->) | (_ & HI & Hloop)].
  - rewrite Hfr. change (Z.of_nat (length [(c, f)])) with 1.
    rewrite calculateRequiredDummies_one by exact Hm. reflexivity.
  - pose proof (mergeLoop_leaves localeCompare src m Hm _ _ _ _ HI Hloop)
      as Hl.
    cbn [flat_map] in Hl. rewrite app_nil_r in Hl. rewrite Hl.
    rewrite (Permutation_flat_map leavesOf
               (paddedQueue_perm localeCompare src m _)).
    rewrite flat_map_app, leavesOf_leafNodes, leavesOf_dummyNodes.
    reflexivity.
Qed.

Lemma tree_leaves_witness :
  2 <= 3 /\ lit "abcd" <> [] /\ (fuelFor (lit "abcd") 3 <= 7)%nat /\
  exists root,
    generateMaryTree codeUnitCompare Part000 7
      (calculateFrequencies (lit "abcd")) 3 = Some (Some root) /\
    Permutation (leavesOf root)
      (leafNodes (calculateFrequencies (lit "abcd")) ++
       dummyNodes Part000
         (Z.to_nat
            (calculateRequiredDummies
               (Z.of_nat (length (calculateFrequencies (lit "abcd")))) 3))
         0).
Proof.
  split; [lia|]. split; [discriminate|]. split; [vm_compute; lia|].
  apply (tree_leaves codeUnitCompare Part000 7 (lit "abcd") 3);
    [lia | discriminate | vm_compute; lia].
Defined.

Lemma built_tree_internal_count localeCompare src fuel text m :
  2 <= m -> text <> [] -> (fuelFor text m <= fuel)%nat ->
  exists root,
    generateMaryTree localeCompare src fuel (calculateFrequencies text) m
      = Some (Some root) /\
    Z.of_nat (length (internalNodes root)) * (m - 1) =
    Z.of_nat (length (calculateFrequencies text))
    + calculateRequiredDummies
        (Z.of_nat (length (calculateFrequencies text))) m
    - 1.
Proof.
  intros Hm Hne Hfuel.
  destruct (text_tree_cases localeCompare src m fuel text Hm Hne Hfuel)
    as (root & Hgen & _ & Hcase).
  exists root. split; [exact Hgen|].
  destruct Hcase as [(c & f & Hfr & ->) | (Hlen & HI & Hloop)].
  - rewrite Hfr. change (Z.of_nat (length [(c, f)])) with 1.
    rewrite calculateRequiredDummies_one by exact Hm. reflexivity.
  - pose proof (mergeLoop_internalNodes localeCompare src m Hm _ _ _ _
                  HI Hloop) as Hc.
    cbn [flat_map] in Hc. rewrite app_nil_r in Hc.
    rewrite (Permutation_length
               (Permutation_flat_map internalNodes
                  (paddedQueue_perm localeCompare src m _))) in Hc.
    rewrite paddedQueue_size in Hc by (try exact Hm; lia).
    assert (Hz : forall l : list HuffmanTreeNode,
               Forall (fun t => children t = []) l ->
               flat_map internalNodes l = []).
    { induction 1 as [|t l Ht _ IH]; [reflexivity|].
      cbn [flat_map]. rewrite IH, app_nil_r.
      destruct t as [d f kids]. cbn in Ht. subst kids. reflexivity. }
    rewrite Hz in Hc.
    + change (size [root]) with 1 in Hc. cbn [length] in Hc. lia.
    + apply Forall_app. split.
      * unfold leafNodes. apply Forall_map, Forall_forall. reflexivity.
      * apply dummyNodes_childless.
Qed.

(** X10.  The built tree has (N + d - 1) / (M - 1) nodes with children,
    where N is the number of distinct symbols and d the padding: that
    many merge steps were made, and each made one node. *)
Theorem tree_internal_count localeCompare src fuel text m :
  2 <= m -> text <> [] -> (fuelFor text m <= fuel)%nat ->
  exists root,
    generateMaryTree localeCompare src fuel (calculateFrequencies text) m
      = Some (Some root) /\
    Z.of_nat (length (internalNodes root)) * (m - 1) =
    Z.of_nat (length (calculateFrequencies text))
    + calculateRequiredDummies
        (Z.of_nat (length (calculateFrequencies text))) m
    - 1.
Proof.
  intros. apply built_tree_internal_count; assumption.
Qed.

Lemma tree_internal_count_witness :
  2 <= 3 /\ lit "abcd" <> [] /\ (fuelFor (lit "abcd") 3 <= 7)%nat /\
  exists root,
    generateMaryTree codeUnitCompare AppTsx 7
      (calculateFrequencies (lit "abcd")) 3 = Some (Some root) /\
    Z.of_nat (length (internalNodes root)) * (3 - 1) =
    Z.of_nat (length (calculateFrequencies (lit "abcd")))
    + calculateRequiredDummies
        (Z.of_nat (length (calculateFrequencies (lit "abcd")))) 3
    - 1.
Proof.
  split; [lia|]. split; [discriminate|]. split; [vm_compute; lia|].
  apply (tree_internal_count codeUnitCompare AppTsx 7 (lit "abcd") 3);
    [lia | discriminate | vm_compute; lia].
Defined.

Section AscendingTree.
Variable localeCompare : jsstring -> jsstring -> Z.
Variable src : SourceFile.
Hypothesis consistent : consistentComparator localeCompare.

Lemma ascending_app_l (l1 l2 : list HuffmanTreeNode) :
  ascending localeCompare (l1 ++ l2) -> ascending localeCompare l1.
Proof.
  unfold ascending. induction l1 as [|x l1 IH]; simpl; intros H;
    [constructor|].
  inversion H as [|? ? Hs Hall]; subst.
  apply Forall_app in Hall as [Hall _]. constructor; auto.
Qed.

Lemma enqueueLeaves_ascending frequencies :
  forall pq,
    ascending localeCompare pq ->
    ascending localeCompare (enqueueLeaves localeCompare frequencies pq).
Proof.
  unfold enqueueLeaves.
  induction frequencies as [|e l IH]; intros pq H; simpl; [exact H|].
  apply IH. apply (sort_ascending localeCompare consistent).
Qed.

Lemma enqueueDummies_ascending count :
  forall i pq,
    ascending localeCompare pq ->
    ascending localeCompare (enqueueDummies localeCompare src count i pq).
Proof.
  induction count as [|count IH]; intros i pq H; simpl; [exact H|].
  apply IH. apply (sort_ascending localeCompare consistent).
Qed.

Lemma paddedQueue_ascending frequencies m :
  ascending localeCompare (paddedQueue localeCompare src frequencies m).
Proof.
  unfold paddedQueue.
  apply enqueueDummies_ascending, enqueueLeaves_ascending. constructor.
Qed.

Lemma mergeLoop_ascending m K fuel pq r :
  2 <= m ->
  invariant src m K pq ->
  ascending localeCompare pq -> Forall (childrenAscending localeCompare) pq ->
  mergeLoop localeCompare fuel m pq = Some r ->
  Forall (childrenAscending localeCompare) r.
Proof.
  intros Hm HI Hasc Hall Hloop.
  enough (G : ascending localeCompare r /\ Forall (childrenAscending localeCompare) r)
    by apply G.
  revert Hloop.
  apply (mergeLoop_preserves localeCompare src m Hm K
           (fun q => ascending localeCompare q /\
                     Forall (childrenAscending localeCompare) q));
    [|exact HI | auto].
  intros q _ Hfull [Hq1 Hq2]. split.
  - apply (sort_ascending localeCompare consistent).
  - eapply Permutation_Forall; [symmetry; apply enqueue_perm|].
    rewrite <- (firstn_skipn (Z.to_nat m) q) in Hq1, Hq2.
    apply Forall_app in Hq2 as [Hk Hr].
    constructor; [|exact Hr].
    unfold childrenAscending. cbn [subnodes]. constructor.
    + cbn [children]. eapply ascending_app_l. exact Hq1.
    + apply Forall_flat_map. exact Hk.
Qed.
End AscendingTree.

(** X11.  With a consistent comparator, the children of every node of the
    built tree are in ascending order of the comparator of the queue, so
    that a lower digit never leads to a heavier subtree. *)
Theorem children_in_ascending_order localeCompare src fuel text m :
  consistentComparator localeCompare ->
  2 <= m -> text <> [] -> (fuelFor text m <= fuel)%nat ->
  exists root,
    generateMaryTree localeCompare src fuel (calculateFrequencies text) m
      = Some (Some root) /\
    forall x, In x (subnodes root) ->
      ascending localeCompare (children x) /\
      StronglySorted (fun a b => freq a <= freq b) (children x).
Proof.
  intros Hc Hm Hne Hfuel.
  destruct (text_tree_cases localeCompare src m fuel text Hm Hne Hfuel)
    as (root & Hgen & _ & Hcase).
  exists root. split; [exact Hgen|].
  assert (Hall : childrenAscending localeCompare root).
  { destruct Hcase as [(c & f & _ & ->) | (_ & HI & Hloop)].
    - repeat constructor.
    - assert (Hr : Forall (childrenAscending localeCompare) [root]).
      { eapply (mergeLoop_ascending localeCompare src Hc m);
          [exact Hm | exact HI | | | exact Hloop].
        - apply paddedQueue_ascending. exact Hc.
        - eapply Permutation_Forall;
            [symmetry; apply paddedQueue_perm|].
          apply Forall_app. split.
          + unfold leafNodes. apply Forall_map, Forall_forall.
            intros e _. repeat constructor.
          + generalize 0.
            generalize (Z.to_nat
                          (calculateRequiredDummies
                             (Z.of_nat (length (calculateFrequencies text)))
                             m)).
            induction n as [|n IH]; intros i; cbn [dummyNodes];
              constructor; [repeat constructor | apply IH]. }
      inversion Hr; assumption. }
  intros x Hx. unfold childrenAscending in Hall.
  rewrite Forall_forall in Hall. specialize (Hall x Hx).
  split; [exact Hall|].
  unfold ascending in Hall.
  induction Hall as [|y l Hl IH Hy]; constructor; [exact IH|].
  eapply Forall_impl; [|exact Hy].
  intros z Hz. apply (compareNodes_le localeCompare) in Hz. lia.
Qed.

Lemma children_in_ascending_order_witness :
  consistentComparator codeUnitCompare /\
  2 <= 3 /\ lit "abcd" <> [] /\ (fuelFor (lit "abcd") 3 <= 7)%nat /\
  exists root,
    generateMaryTree codeUnitCompare AppTsx 7
      (calculateFrequencies (lit "abcd")) 3 = Some (Some root) /\
    forall x, In x (subnodes root) ->
      ascending codeUnitCompare (children x) /\
      StronglySorted (fun a b => freq a <= freq b) (children x).
Proof.
  split; [exact codeUnitCompare_consistent|].
  split; [lia|]. split; [discriminate|]. split; [vm_compute; lia|].
  apply (children_in_ascending_order codeUnitCompare AppTsx 7 (lit "abcd") 3);
    [exact codeUnitCompare_consistent | lia | discriminate
    | vm_compute; lia].
Defined.

(** ** A branching factor below 2 *)

Lemma takeChildren_size count :
  forall kids tot (pq : list HuffmanTreeNode),
    (count <= length pq)%nat ->
    length (snd (takeChildren count kids tot pq)) = (length pq - count)%nat.
Proof.
  induction count as [|count IH]; intros kids tot pq Hlen; simpl.
  - lia.
  - destruct pq as [|x pq]; [simpl in Hlen; lia|].
    simpl in *. rewrite IH by lia. reflexivity.
Qed.

Lemma mergeStep_small localeCompare m (pq : list HuffmanTreeNode) :
  m <= 1 -> 2 <= size pq ->
  size pq <= size (mergeStep localeCompare m pq).
Proof.
  intros Hm Hsz. unfold mergeStep.
  rewrite Z.min_l by lia.
  pose proof (takeChildren_size (Z.to_nat m) [] 0 pq) as Hlen.
  destruct (takeChildren (Z.to_nat m) [] 0 pq) as [[kids tot] rest].
  rewrite size_enqueue. unfold size in *. cbn [snd] in Hlen.
  rewrite Hlen by lia. lia.
Qed.

(** With M <= 1 a merge step never shortens the queue, and the loop does
    not end. *)
Lemma mergeLoop_never_ends localeCompare m :
  m <= 1 ->
  forall fuel (pq : list HuffmanTreeNode),
    2 <= size pq -> mergeLoop localeCompare fuel m pq = None.
Proof.
  intros Hm. induction fuel as [|fuel IH]; intros pq Hsz; simpl;
    [reflexivity|].
  destruct (1 <? size pq) eqn:E; [|apply Z.ltb_ge in E; lia].
  apply IH. pose proof (mergeStep_small localeCompare m pq Hm Hsz). lia.
Qed.

Lemma paddedQueue_at_least localeCompare src frequencies m :
  Z.of_nat (length frequencies)
  <= size (paddedQueue localeCompare src frequencies m).
Proof.
  unfold size.
  rewrite (Permutation_length (paddedQueue_perm localeCompare src m _)).
  rewrite length_app. unfold leafNodes. rewrite length_map. lia.
Qed.

Lemma encode_never_returns localeCompare src st text m :
  m <= 1 -> (2 <= length (calculateFrequencies text))%nat ->
  forall fuel,
    generateMaryTree localeCompare src fuel (calculateFrequencies text) m
      = None /\
    encode localeCompare src fuel st text m = None.
Proof.
  intros Hm Hlen fuel.
  assert (Hgen : generateMaryTree localeCompare src fuel
                   (calculateFrequencies text) m = None).
  { unfold generateMaryTree. rewrite size_enqueueLeaves.
    destruct (Z.of_nat (length (calculateFrequencies text)) =? 0) eqn:E0;
      [apply Z.eqb_eq in E0; lia|].
    destruct (Z.of_nat (length (calculateFrequencies text)) =? 1) eqn:E1;
      [apply Z.eqb_eq in E1; lia|].
    rewrite mergeLoop_never_ends; [reflexivity | exact Hm |].
    pose proof (paddedQueue_at_least localeCompare src
                  (calculateFrequencies text) m). lia. }
  split; [exact Hgen|].
  unfold encode. destruct text as [|a text]; [simpl in Hlen; lia|].
  rewrite Hgen. reflexivity.
Qed.

(** X12.  With a branching factor M <= 0 (an emptied M field gives
    [Number("")], which is 0) and a text of two or more distinct symbols,
    the loop of [generateMaryTree] never ends, so [encode] never returns:
    no amount of fuel gives a result. *)
Theorem encode_hangs_below_one localeCompare src st text m :
  m <= 0 -> (2 <= length (calculateFrequencies text))%nat ->
  forall fuel,
    generateMaryTree localeCompare src fuel (calculateFrequencies text) m
      = None /\
    encode localeCompare src fuel st text m = None.
Proof.
  intros Hm Hlen. apply encode_never_returns; [lia | exact Hlen].
Qed.

Lemma encode_hangs_below_one_witness :
  0 <= 0 /\ (2 <= length (calculateFrequencies (lit "ab")))%nat /\
  forall fuel,
    generateMaryTree codeUnitCompare AppTsx fuel
      (calculateFrequencies (lit "ab")) 0 = None /\
    encode codeUnitCompare AppTsx fuel initialState (lit "ab") 0 = None.
Proof.
  split; [lia|]. split; [vm_compute; lia|].
  apply (encode_hangs_below_one codeUnitCompare AppTsx initialState
           (lit "ab") 0); [lia | vm_compute; lia].
Defined.

(** X13.  With M = 1 and a text of two or more distinct symbols the loop
    of [generateMaryTree] never ends either: each step takes one node and
    puts one back.  ([calculateRequiredDummies] is NaN in JavaScript here
    and negative in the model; both add no dummy node.) *)
Theorem encode_hangs_at_one localeCompare src st text :
  (2 <= length (calculateFrequencies text))%nat ->
  forall fuel,
    generateMaryTree localeCompare src fuel (calculateFrequencies text) 1
      = None /\
    encode localeCompare src fuel st text 1 = None.
Proof.
  intros Hlen. apply encode_never_returns; [lia | exact Hlen].
Qed.

Lemma encode_hangs_at_one_witness :
  (2 <= length (calculateFrequencies (lit "ab")))%nat /\
  forall fuel,
    generateMaryTree codeUnitCompare AppTsx fuel
      (calculateFrequencies (lit "ab")) 1 = None /\
    encode codeUnitCompare AppTsx fuel initialState (lit "ab") 1 = None.
Proof.
  split; [vm_compute; lia|].
  apply (encode_hangs_at_one codeUnitCompare AppTsx initialState (lit "ab"));
    vm_compute; lia.
Defined.

(** ** The payload *)

Lemma length_concat_codes (g : jsstring -> jsstring) (l : list jsstring) :
  Z.of_nat (length (concat (map g l))) =
  fold_right (fun x acc => Z.of_nat (length (g x)) + acc) 0 l.
Proof.
  induction l as [|x l IH]; [reflexivity|].
  cbn [map concat fold_right]. rewrite length_app. lia.
Qed.

(** X14.  For a non-empty text, the length of the payload is the sum over
    the frequency table of count times code length, and it is at least
    the number of symbols of the text. *)
Theorem payload_length localeCompare src fuel st text m :
  2 <= m -> text <> [] -> (fuelFor text m <= fuel)%nat ->
  exists st' payload,
    encode localeCompare src fuel st text m = Some (st', payload) /\
    Z.of_nat (length payload) =
      weightedSum
        (fun c => Z.of_nat (length (codeOrEmpty (huffmanCodes st') c)))
        (frequencies st') /\
    (length (stringIterator text) <= length payload)%nat.
Proof.
  intros Hm Hne Hfuel.
  destruct (encode_result localeCompare src m Hm fuel st text Hne Hfuel)
    as (root & _ & _ & Hperm & Henc).
  eexists _, _. split; [exact Henc|]. cbn [huffmanCodes frequencies].
  rewrite concatCodes_concat. split.
  - rewrite length_concat_codes.
    rewrite (frequencies_weightedSum
               (fun c => Z.of_nat (length (codeOrEmpty (tableOf root) c)))).
    reflexivity.
  - assert (G : forall l,
               (forall c, In c l ->
                  exists code, get c (tableOf root) = Some code /\ code <> []) ->
               (length l <= length (concat (map (codeOrEmpty (tableOf root)) l)))%nat).
    { induction l as [|c l IH]; intros Hall; [simpl; lia|].
      cbn [map concat]. rewrite length_app.
      destruct (Hall c (or_introl eq_refl)) as (code & Hget & Hcode).
      unfold codeOrEmpty at 1. rewrite Hget.
      assert (length l
              <= length (concat (map (codeOrEmpty (tableOf root)) l)))%nat
        by (apply IH; intros c' Hc'; apply Hall; right; exact Hc').
      destruct code; [congruence|]. cbn [length]. lia. }
    apply G. intros c Hc.
    destruct (tableOf_symbol src m root text c Hperm Hc)
      as (code & _ & Hget & Hcode).
    eauto.
Qed.

Lemma payload_length_witness :
  2 <= 2 /\ lit "aabbbccccc" <> [] /\
  (fuelFor (lit "aabbbccccc") 2 <= 12)%nat /\
  exists st' payload,
    encode codeUnitCompare AppTsx 12 initialState (lit "aabbbccccc") 2
      = Some (st', payload) /\
    Z.of_nat (length payload) =
      weightedSum
        (fun c => Z.of_nat (length (codeOrEmpty (huffmanCodes st') c)))
        (frequencies st') /\
    (length (stringIterator (lit "aabbbccccc")) <= length payload)%nat.
Proof.
  split; [lia|]. split; [discriminate|]. split; [vm_compute; lia|].
  apply (payload_length codeUnitCompare AppTsx 12 initialState
           (lit "aabbbccccc") 2); [lia | discriminate | vm_compute; lia].
Defined.

(** X15.  For 2 <= M <= 10 the payload that [encode] returns consists of
    the digit characters "0" to M-1 only. *)
Theorem payload_digits localeCompare src fuel st text m :
  2 <= m <= 10 -> (fuelFor text m <= fuel)%nat ->
  exists st' payload,
    encode localeCompare src fuel st text m = Some (st', payload) /\
    isDigits m payload.
Proof.
  intros Hm Hfuel.
  destruct text as [|a text].
  { exists st, []. split; [reflexivity | constructor]. }
  set (t := a :: text) in *.
  destruct (encode_result localeCompare src m ltac:(lia) fuel st t
              ltac:(discriminate) Hfuel)
    as (root & _ & Hwf & _ & Henc).
  eexists _, _. split; [exact Henc|].
  rewrite concatCodes_concat.
  induction (stringIterator t) as [|c l IH]; [constructor|].
  cbn [map concat]. apply Forall_app. split; [|exact IH].
  unfold codeOrEmpty. destruct (get c (tableOf root)) as [code|] eqn:E;
    [|constructor].
  apply get_In in E.
  eapply (tableOf_digits src m); eassumption.
Qed.

Lemma payload_digits_witness :
  2 <= 3 <= 10 /\ (fuelFor (lit "abcd") 3 <= 7)%nat /\
  exists st' payload,
    encode codeUnitCompare Part000 7 initialState (lit "abcd") 3
      = Some (st', payload) /\
    isDigits 3 payload.
Proof.
  split; [lia|]. split; [vm_compute; lia|].
  apply (payload_digits codeUnitCompare Part000 7 initialState
           (lit "abcd") 3); [lia | vm_compute; lia].
Defined.

(** ** A text of one distinct symbol *)

Lemma counting_loop_repeat c k :
  forall n,
    fold_left (fun freq char => set char (orZero (get char freq) + 1) freq)
      (repeat c k) [(c, n)]
    = [(c, n + Z.of_nat k)].
Proof.
  induction k as [|k IH]; intros n.
  - simpl. rewrite Z.add_0_r. reflexivity.
  - cbn [repeat fold_left set get]. rewrite str_eqb_refl, orZero_Some, IH.
    replace (n + 1 + Z.of_nat k) with (n + Z.of_nat (S k)) by lia.
    reflexivity.
Qed.

(** X16.  A text whose symbols are all the same symbol [c], occurring
    k + 1 times, is encoded without any merge, whatever M is: the
    frequency table is {c: k+1}, the code table {c: "0"}, and the payload
    "0" repeated k + 1 times. *)
Theorem single_symbol_text localeCompare src fuel st text m c k :
  stringIterator text = repeat c (S k) ->
  exists st',
    encode localeCompare src fuel st text m
      = Some (st', repeat 48 (S k)) /\
    huffmanCodes st' = [(c, lit "0")] /\
    frequencies st' = [(c, Z.of_nat (S k))].
Proof.
  intros H.
  assert (Hsym : isSymbol c).
  { pose proof (stringIterator_symbols text) as Hs.
    rewrite H in Hs. inversion Hs; assumption. }
  assert (Hf : calculateFrequencies text = [(c, Z.of_nat (S k))]).
  { unfold calculateFrequencies. rewrite H.
    cbn [repeat fold_left set get]. change (orZero None + 1) with 1.
    rewrite counting_loop_repeat.
    replace (1 + Z.of_nat k) with (Z.of_nat (S k)) by lia.
    reflexivity. }
  assert (Hcodes : generateCodes (Node c (Z.of_nat (S k)) []) [] []
                   = [(c, lit "0")]).
  { rewrite generateCodes_eq, (symbol_isSymbolNode c Hsym). reflexivity. }
  assert (Hpay : concatCodes [(c, lit "0")] text = repeat 48 (S k)).
  { rewrite concatCodes_concat, H.
    assert (Hc : codeOrEmpty [(c, lit "0")] c = [48])
      by (unfold codeOrEmpty; cbn [get]; rewrite str_eqb_refl; reflexivity).
    generalize (S k). induction n as [|n IH]; [reflexivity|].
    cbn [repeat map concat]. rewrite Hc, IH. reflexivity. }
  destruct text as [|a text]; [discriminate|].
  unfold encode. rewrite Hf.
  change (generateMaryTree localeCompare src fuel [(c, Z.of_nat (S k))] m)
    with (Some (Some (Node c (Z.of_nat (S k)) []))).
  unfold generateCodesFrom. rewrite Hcodes, Hpay.
  eexists. split; [reflexivity|]. split; reflexivity.
Qed.

Lemma single_symbol_text_witness :
  stringIterator (lit "aaaa") = repeat (lit "a") (S 3) /\
  exists st',
    encode codeUnitCompare AppTsx 0 initialState (lit "aaaa") 1
      = Some (st', repeat 48 (S 3)) /\
    huffmanCodes st' = [(lit "a", lit "0")] /\
    frequencies st' = [(lit "a", Z.of_nat (S 3))].
Proof.
  split; [reflexivity|].
  apply (single_symbol_text codeUnitCompare AppTsx 0 initialState
           (lit "aaaa") 1 (lit "a") 3).
  reflexivity.
Defined.

(** ** The compressed file *)

Lemma get_absent {V} (k : jsstring) (m : jsMap V) :
  ~ In k (keys m) -> get k m = None.
Proof.
  induction m as [|[k0 v0] m IH]; cbn [get keys map fst In]; intros H;
    [reflexivity|].
  destruct (str_eqb k0 k) eqn:E.
  - apply str_eqb_eq in E. tauto.
  - apply IH. intros Hin. apply H. right. exact Hin.
Qed.

(** The table in the state that [encode] leaves for a non-empty text is
    the table of the tree of that text, however much fuel was given. *)
Lemma encode_table localeCompare src m fuel st0 text st payload :
  2 <= m -> text <> [] ->
  encode localeCompare src fuel st0 text m = Some (st, payload) ->
  exists root,
    huffmanCodes st = tableOf root /\
    Permutation (keysOf root)
      (keys (calculateFrequencies text)
         ++ dummyKeys src m (calculateFrequencies text)).
Proof.
  intros Hm Hne H.
  destruct (encode_result localeCompare src m Hm (fuelFor text m) st0 text
              Hne (le_n _))
    as (root & Hgen & _ & Hperm & _).
  exists root. split; [|exact Hperm].
  unfold encode in H. destruct text as [|a t]; [congruence|].
  destruct (generateMaryTree localeCompare src fuel
              (calculateFrequencies (a :: t)) m) as [r0|] eqn:Eg;
    [|discriminate].
  assert (Er : r0 = Some root)
    by (eapply generateMaryTree_fuel_irrelevant; eassumption).
  subst r0. injection H as <- _. cbn [huffmanCodes generateCodesFrom].
  apply generateCodes_setAll.
Qed.

(** X17.  When the state before an upload came from encoding a text
    [prev], the compressed file that [handleFileUpload] makes holds the
    code table of [prev] next to the payload of the uploaded text: every
    symbol of [prev] has a code in the file's table, while a symbol of the
    uploaded text that does not occur in [prev] has none there, although
    its code, taken from the new table, is in the payload. *)
Theorem upload_exports_previous_table localeCompare fuel0 fuel st0 st prev
  payload0 mValue fileName text :
  2 <= mValue -> prev <> [] ->
  encode localeCompare Part000 fuel0 st0 prev mValue = Some (st, payload0) ->
  (fuelFor text mValue <= fuel)%nat ->
  exists st' file,
    handleFileUpload localeCompare fuel st mValue fileName text
      = Some (st', text, file) /\
    (forall c, In c (stringIterator prev) ->
       exists code : jsstring,
         get c (CompressionData.huffmanCodes file) = Some code /\
         code <> []) /\
    (forall c, In c (stringIterator text) -> ~ In c (stringIterator prev) ->
       get c (CompressionData.huffmanCodes file) = None /\
       exists code : jsstring,
         get c (huffmanCodes st') = Some code /\ code <> []) /\
    CompressionData.encodedData file =
      concat (map (codeOrEmpty (huffmanCodes st')) (stringIterator text)) /\
    CompressionData.encodedData file = encodedText st'.
Proof.
  intros Hm Hprev Hst Hfuel.
  destruct (encode_table localeCompare Part000 mValue fuel0 st0 prev st
              payload0 Hm Hprev Hst) as (root0 & Htab & Hperm0).
  assert (Hold : forall c, In c (stringIterator prev) ->
             exists code : jsstring,
               get c (huffmanCodes st) = Some code /\ code <> []).
  { intros c Hc. rewrite Htab.
    destruct (tableOf_symbol Part000 mValue root0 prev c Hperm0 Hc)
      as (code & _ & Hget & Hcode).
    eauto. }
  assert (Hnew : forall c, isSymbol c -> ~ In c (stringIterator prev) ->
             get c (huffmanCodes st) = None).
  { intros c Hsym Hc. apply get_absent. rewrite Htab. intros Hin.
    apply tableOf_keys in Hin. apply (Permutation_in _ Hperm0) in Hin.
    apply in_app_or in Hin as [Hin | Hin].
    - apply Hc. apply calculateFrequencies_keys. exact Hin.
    - pose proof (dummyKeys_names Part000 mValue
                    (calculateFrequencies prev)) as Hd.
      rewrite Forall_forall in Hd. destruct (Hd c Hin) as [i Hi].
      eapply symbol_not_dummyName; eassumption. }
  unfold handleFileUpload.
  destruct text as [|a text].
  { cbn [encode]. eexists _, _. split; [reflexivity|].
    cbn [CompressionData.huffmanCodes CompressionData.encodedData
         encodedText huffmanCodes].
    split; [exact Hold|]. split; [intros c []|]. split; reflexivity. }
  set (t := a :: text) in *.
  destruct (encode_result localeCompare Part000 mValue Hm fuel st t
              ltac:(discriminate) Hfuel)
    as (root & _ & _ & Hperm & Henc).
  rewrite Henc. eexists _, _. split; [reflexivity|].
  cbn [CompressionData.huffmanCodes CompressionData.encodedData
       encodedText huffmanCodes].
  split; [exact Hold|]. split; [|split; [apply concatCodes_concat|reflexivity]].
  intros c Hc Hnot. split.
  - apply Hnew; [|exact Hnot].
    pose proof (stringIterator_symbols t) as Hs.
    rewrite Forall_forall in Hs. apply Hs. exact Hc.
  - destruct (tableOf_symbol Part000 mValue root t c Hperm Hc)
      as (code & _ & Hget & Hcode).
    eauto.
Qed.

Lemma upload_exports_previous_table_witness :
  exists st payload0,
    encode codeUnitCompare Part000 13 initialState (lit "aabbbccccc") 3
      = Some (st, payload0) /\
    2 <= 3 /\ lit "aabbbccccc" <> [] /\
    (fuelFor (lit "xyz") 3 <= 6)%nat /\
    exists st' file,
      handleFileUpload codeUnitCompare 6 st 3 (lit "f.txt") (lit "xyz")
        = Some (st', lit "xyz", file) /\
      (forall c, In c (stringIterator (lit "aabbbccccc")) ->
         exists code : jsstring,
           get c (CompressionData.huffmanCodes file) = Some code /\
           code <> []) /\
      (forall c, In c (stringIterator (lit "xyz")) ->
                 ~ In c (stringIterator (lit "aabbbccccc")) ->
         get c (CompressionData.huffmanCodes file) = None /\
         exists code : jsstring,
           get c (huffmanCodes st') = Some code /\ code <> []) /\
      CompressionData.encodedData file =
        concat (map (codeOrEmpty (huffmanCodes st'))
                  (stringIterator (lit "xyz"))) /\
      CompressionData.encodedData file = encodedText st'.
Proof.
  eexists _, _. split; [vm_compute; reflexivity|].
  split; [lia|]. split; [discriminate|]. split; [vm_compute; lia|].
  eapply (upload_exports_previous_table codeUnitCompare 13 6 initialState
            _ (lit "aabbbccccc") _ 3 (lit "f.txt") (lit "xyz"));
    [lia | discriminate | vm_compute; reflexivity | vm_compute; lia].
Defined.

(** A file uploaded into the application as it starts (showing the default
    input "aabbbccccc") is written with the codes of "a", "b" and "c",
    none of which is a symbol of the file. *)
Example upload_mismatch :
  exists st0 st' file,
    encodeEffect codeUnitCompare Part000 13 initialState
      (lit "aabbbccccc") 3 = Some st0 /\
    handleFileUpload codeUnitCompare 6 st0 3 (lit "f.txt") (lit "xyz")
      = Some (st', lit "xyz", file) /\
    CompressionData.huffmanCodes file
      = [(lit "a", lit "0"); (lit "b", lit "1"); (lit "c", lit "2")] /\
    CompressionData.encodedData file = lit "012" /\
    huffmanCodes st'
      = [(lit "x", lit "0"); (lit "y", lit "1"); (lit "z", lit "2")].
Proof.
  eexists _, _, _. split; [vm_compute; reflexivity|].
  split; [vm_compute; reflexivity|]. repeat split.
Qed.

(** ** No more distinct symbols than M *)

Lemma internalNodes_nil t : internalNodes t = [] -> children t = [].
Proof.
  destruct t as [d f kids]. unfold internalNodes. cbn [subnodes filter children].
  destruct kids; [reflexivity | discriminate].
Qed.

Lemma internalNodes_children_nil (l : list HuffmanTreeNode) :
  flat_map internalNodes l = [] -> Forall (fun t => children t = []) l.
Proof.
  induction l as [|t l IH]; cbn [flat_map]; intros H; [constructor|].
  apply app_eq_nil in H as [H1 H2].
  constructor; [apply internalNodes_nil; exact H1 | apply IH; exact H2].
Qed.

Lemma orZeroCode_id cur : cur <> [] -> orZeroCode cur = cur.
Proof. destruct cur; [congruence | reflexivity]. Qed.

Lemma codesOfChildren_leaves (l : list HuffmanTreeNode) :
  Forall (fun t => children t = []) l ->
  forall i,
    Forall (fun e => exists j,
                i <= j < i + Z.of_nat (length l) /\ snd e = toString j)
      (codesOfChildren l [] i).
Proof.
  induction 1 as [|t l Ht _ IH]; intros i; [constructor|].
  cbn [codesOfChildren length]. apply Forall_app. split.
  - destruct t as [d f kids]. cbn [children] in Ht. subst kids.
    rewrite codesOf_eq. cbn [app codesOfChildren].
    destruct (isSymbolNode d); constructor; [|constructor].
    exists i. split; [lia|].
    apply orZeroCode_id, toString_nonempty.
  - eapply Forall_impl; [|apply (IH (i + 1))].
    intros e (j & Hj & He). exists j. split; [lia | exact He].
Qed.

(** X18.  When the text has at least two and at most M distinct symbols,
    the tree is a single node over the leaves, so every code is the
    number of a child of the root, and for M <= 10 the payload has exactly
    one digit per symbol of the text. *)
Theorem few_symbols_one_digit localeCompare src fuel st text m :
  2 <= m ->
  2 <= Z.of_nat (length (calculateFrequencies text)) <= m ->
  (fuelFor text m <= fuel)%nat ->
  exists st' payload,
    encode localeCompare src fuel st text m = Some (st', payload) /\
    (forall k code, In (k, code) (huffmanCodes st') ->
                    exists i, 0 <= i < m /\ code = toString i) /\
    (m <= 10 -> length payload = length (stringIterator text)).
Proof.
  intros Hm [Hlo Hhi] Hfuel.
  assert (Hne : text <> []) by (intros ->; simpl in Hlo; lia).
  destruct (encode_result localeCompare src m Hm fuel st text Hne Hfuel)
    as (root & Hgen & Hwf & Hperm & Henc).
  destruct (built_tree_internal_count localeCompare src fuel text m Hm Hne Hfuel)
    as (root' & Hgen' & Hcount).
  rewrite Hgen in Hgen'. injection Hgen' as <-.
  destruct (built_tree_shape localeCompare src fuel text m Hm ltac:(lia)
              Hfuel) as (root' & Hgen' & _ & Hdata).
  rewrite Hgen in Hgen'. injection Hgen' as <-.
  pose proof (calculateRequiredDummies_range
                (Z.of_nat (length (calculateFrequencies text))) m
                ltac:(lia) Hm) as Hr.
  assert (Hone : length (internalNodes root) = 1%nat) by nia.
  pose proof (wellFormed_internal src m root Hwf Hdata) as Hsz.
  destruct root as [d f kids]. cbn [data children] in Hdata, Hsz. subst d.
  assert (Hkids : Forall (fun t => children t = []) kids).
  { apply internalNodes_children_nil.
    unfold internalNodes in Hone at 1. cbn [subnodes filter children] in Hone.
    destruct kids as [|k0 kids0]; [unfold size in Hsz; simpl in Hsz; lia|].
    cbn [length] in Hone.
    assert (Hfl : forall l,
               filter (fun x => match children x with
                                | [] => false
                                | _ :: _ => true
                                end) (flat_map subnodes l)
               = flat_map internalNodes l).
    { induction l as [|t l IH]; [reflexivity|].
      cbn [flat_map]. rewrite filter_app, IH. reflexivity. }
    rewrite Hfl in Hone.
    destruct (flat_map internalNodes (k0 :: kids0)); [reflexivity|].
    simpl in Hone. lia. }
  assert (Hcodes : forall k code,
             In (k, code) (tableOf (Node (lit "internal") f kids)) ->
             exists i, 0 <= i < m /\ code = toString i).
  { intros k code Hin. apply tableOf_In in Hin.
    rewrite codesOf_eq in Hin.
    change (isSymbolNode (lit "internal")) with false in Hin.
    pose proof (codesOfChildren_leaves kids Hkids 0) as Hall.
    rewrite Forall_forall in Hall.
    destruct (Hall _ Hin) as (j & Hj & He).
    exists j. unfold size in Hsz. split; [lia | exact He]. }
  eexists _, _. split; [exact Henc|]. cbn [huffmanCodes].
  split; [exact Hcodes|].
  intros Hten. rewrite concatCodes_concat.
  assert (G : forall l,
             (forall c, In c l -> In c (stringIterator text)) ->
             length (concat (map (codeOrEmpty
                                    (tableOf (Node (lit "internal") f kids)))
                               l)) = length l).
  { induction l as [|c l IH]; intros Hall; [reflexivity|].
    cbn [map concat length]. rewrite length_app.
    rewrite IH by (intros c' Hc'; apply Hall; right; exact Hc').
    destruct (tableOf_symbol src m _ text c Hperm (Hall c (or_introl eq_refl)))
      as (code & Hin & Hget & _).
    unfold codeOrEmpty. rewrite Hget.
    destruct (Hcodes _ _ Hin) as (i & Hi & ->).
    rewrite toString_digit by lia. reflexivity. }
  apply G. auto.
Qed.

Lemma few_symbols_one_digit_witness :
  2 <= 3 /\
  2 <= Z.of_nat (length (calculateFrequencies (lit "aabbbccccc"))) <= 3 /\
  (fuelFor (lit "aabbbccccc") 3 <= 13)%nat /\
  exists st' payload,
    encode codeUnitCompare AppTsx 13 initialState (lit "aabbbccccc") 3
      = Some (st', payload) /\
    (forall k code, In (k, code) (huffmanCodes st') ->
                    exists i, 0 <= i < 3 /\ code = toString i) /\
    (3 <= 10 -> length payload = length (stringIterator (lit "aabbbccccc"))).
Proof.
  split; [lia|]. split; [vm_compute; split; discriminate|].
  split; [vm_compute; lia|].
  apply (few_symbols_one_digit codeUnitCompare AppTsx 13 initialState
           (lit "aabbbccccc") 3);
    [lia | vm_compute; split; discriminate | vm_compute; lia].
Defined.

(** ** Where the dummy leaves go *)

Lemma filter_perm_length {A} (f : A -> bool) (l l' : list A) :
  Permutation l l' -> length (filter f l) = length (filter f l').
Proof.
  induction 1 as [|x l l' _ IH|x y l|l l' l'' _ IH1 _ IH2]; simpl.
  - reflexivity.
  - destruct (f x); simpl; lia.
  - destruct (f x), (f y); reflexivity.
  - lia.
Qed.

Lemma frequencies_positive text :
  Forall (fun e => 1 <= snd e) (calculateFrequencies text).
Proof.
  apply Forall_forall. intros [c v] Hin. cbn [snd].
  pose proof (In_get c v _ (calculateFrequencies_NoDup text) Hin) as Hget.
  destruct (calculateFrequencies_get text c) as [Hc _]. rewrite Hc in Hget.
  pose proof (occurrences_nonneg c (stringIterator text)) as Hn.
  destruct (occurrences c (stringIterator text) =? 0) eqn:E;
    [discriminate|].
  apply Z.eqb_neq in E. injection Hget as <-. lia.
Qed.

Lemma weightless_count src frequencies count :
  Forall (fun e => 1 <= snd e) frequencies ->
  length (filter (fun x => freq x =? 0)
            (leafNodes frequencies ++ dummyNodes src count 0)) = count.
Proof.
  intros Hpos. rewrite filter_app, length_app.
  assert (H1 : filter (fun x => freq x =? 0) (leafNodes frequencies) = []).
  { unfold leafNodes. induction Hpos as [|[c v] l Hv _ IH]; [reflexivity|].
    cbn [map filter freq fst snd] in *.
    destruct (v =? 0) eqn:E; [apply Z.eqb_eq in E; lia | exact IH]. }
  assert (H2 : forall n i,
             filter (fun x => freq x =? 0) (dummyNodes src n i)
             = dummyNodes src n i).
  { induction n as [|n IH]; intros i; [reflexivity|].
    cbn [dummyNodes filter freq]. rewrite Z.eqb_refl, IH. reflexivity. }
  rewrite H1, H2, dummyNodes_length. reflexivity.
Qed.

Lemma dummyNodes_weightless src count :
  forall i y, In y (dummyNodes src count i) -> freq y = 0.
Proof.
  induction count as [|count IH]; intros i y; cbn [dummyNodes In];
    [tauto|].
  intros [<- | H]; [reflexivity | eapply IH; exact H].
Qed.

Section DummyPlacement.
Variable localeCompare : jsstring -> jsstring -> Z.
Variable src : SourceFile.
Variable m : Z.
Hypothesis consistent : consistentComparator localeCompare.
Hypothesis m_ge_2 : 2 <= m.

(** In an ascending queue of non-negative weights, a node of weight 0 is
    among the first [k] when there are at most [k] such nodes. *)
Lemma weightless_first (pq : list HuffmanTreeNode) y k :
  ascending localeCompare pq ->
  Forall (fun x => 0 <= freq x) pq ->
  In y pq -> freq y = 0 ->
  (length (filter (fun x => (freq x =? 0)%Z) pq) <= k)%nat ->
  In y (firstn k pq).
Proof.
  intros Hasc Hnn Hin Hy Hk.
  apply in_split in Hin as (l1 & l2 & ->).
  pose proof (ascending_app_cons localeCompare l1 y l2 Hasc) as Hle.
  apply Forall_app in Hnn as [Hnn1 _].
  assert (Hall : filter (fun x => freq x =? 0) l1 = l1).
  { clear Hk Hasc. induction l1 as [|x l1 IH]; [reflexivity|].
    inversion Hle as [|? ? Hx Hle']; subst.
    inversion Hnn1 as [|? ? Hx0 Hnn']; subst.
    apply (compareNodes_le localeCompare) in Hx.
    cbn [filter]. replace (freq x =? 0) with true
      by (symmetry; apply Z.eqb_eq; lia).
    rewrite IH by assumption. reflexivity. }
  rewrite filter_app, length_app, Hall in Hk.
  cbn [filter] in Hk. rewrite Hy in Hk. cbn in Hk.
  rewrite firstn_app. apply in_or_app. right.
  destruct (k - length l1)%nat as [|n] eqn:E; [lia|].
  left. reflexivity.
Qed.

Lemma mergeLoop_keeps_node K node fuel pq r :
  invariant src m K pq ->
  (exists t, In t pq /\ In node (subnodes t)) ->
  mergeLoop localeCompare fuel m pq = Some r ->
  exists t, In t r /\ In node (subnodes t).
Proof.
  intros HI.
  apply (mergeLoop_preserves localeCompare src m m_ge_2 K
           (fun q => exists t, In t q /\ In node (subnodes t)));
    [|exact HI].
  intros q _ _ (t & Ht & Hn).
  rewrite <- (firstn_skipn (Z.to_nat m) q) in Ht.
  apply in_app_or in Ht as [Ht | Ht].
  - eexists. split.
    + eapply Permutation_in; [symmetry; apply enqueue_perm|].
      left. reflexivity.
    + cbn [subnodes]. right. apply in_flat_map. eauto.
  - exists t. split; [|exact Hn].
    eapply Permutation_in; [symmetry; apply enqueue_perm|].
    right. exact Ht.
Qed.
End DummyPlacement.

(** X19.  With a consistent comparator, all the dummy leaves of the built
    tree are children of one and the same node: having weight 0 and being
    fewer than M - 1, they are all taken by the first merge. *)
Theorem dummies_under_one_node localeCompare src fuel text m :
  consistentComparator localeCompare ->
  2 <= m -> text <> [] -> (fuelFor text m <= fuel)%nat ->
  exists root x,
    generateMaryTree localeCompare src fuel (calculateFrequencies text) m
      = Some (Some root) /\
    In x (subnodes root) /\
    forall y,
      In y (dummyNodes src
              (Z.to_nat
                 (calculateRequiredDummies
                    (Z.of_nat (length (calculateFrequencies text))) m))
              0) ->
      In y (children x).
Proof.
  intros Hc Hm Hne Hfuel.
  destruct (text_tree_cases localeCompare src m fuel text Hm Hne Hfuel)
    as (root & Hgen & _ & Hcase).
  exists root.
  set (fr := calculateFrequencies text) in *.
  set (d := Z.to_nat (calculateRequiredDummies (Z.of_nat (length fr)) m)).
  destruct Hcase as [(c & f & Hfr & ->) | (Hlen & HI & Hloop)].
  - exists (Node c f []). split; [exact Hgen|].
    split; [left; reflexivity|].
    subst d. rewrite Hfr. change (Z.of_nat (length [(c, f)])) with 1.
    rewrite calculateRequiredDummies_one by exact Hm. intros y [].
  - set (pq := paddedQueue localeCompare src fr m) in *.
    pose proof (calculateRequiredDummies_range (Z.of_nat (length fr)) m
                  ltac:(lia) Hm) as Hr.
    pose proof (paddedQueue_perm localeCompare src m fr) as Hperm.
    fold pq d in Hperm.
    pose proof (paddedQueue_size localeCompare src m Hm fr ltac:(lia)) as Hsz.
    fold pq in Hsz.
    assert (Hbig : 1 < size pq) by lia.
    pose proof (invariant_full_merge src m Hm _ pq HI Hbig) as Hfull.
    destruct fuel as [|fuel]; [discriminate|].
    cbn [mergeLoop] in Hloop.
    replace (1 <? size pq) with true in Hloop
      by (symmetry; apply Z.ltb_lt; exact Hbig).
    destruct (mergeStep_invariant localeCompare src m Hm _ pq HI Hbig)
      as [HI' _].
    rewrite (mergeStep_spec localeCompare m Hm pq Hfull) in Hloop, HI'.
    set (kids := firstn (Z.to_nat m) pq) in *.
    set (first := Node (lit "internal") (sumFreq kids) kids) in *.
    destruct (mergeLoop_keeps_node localeCompare src m Hm _ first _ _ _
                HI' ltac:(
                  exists first; split;
                  [eapply Permutation_in;
                   [symmetry; apply enqueue_perm | left; reflexivity]
                  | left; reflexivity]) Hloop)
      as (t & [<- | []] & Hin).
    exists first. split; [exact Hgen|]. split; [exact Hin|].
    intros y Hy. cbn [children first]. subst kids.
    assert (Hy0 : freq y = 0)
      by (eapply dummyNodes_weightless; exact Hy).
    apply (weightless_first localeCompare).
    + apply paddedQueue_ascending. exact Hc.
    + eapply Permutation_Forall; [symmetry; exact Hperm|].
      apply Forall_app. split.
      * unfold leafNodes. apply Forall_map.
        eapply Forall_impl; [|apply (frequencies_positive text)].
        intros e He. simpl in *. lia.
      * apply Forall_forall. intros z Hz.
        rewrite (dummyNodes_weightless src _ _ z Hz). lia.
    + eapply Permutation_in; [symmetry; exact Hperm|].
      apply in_or_app. right. exact Hy.
    + exact Hy0.
    + rewrite (filter_perm_length _ _ _ Hperm).
      rewrite weightless_count by apply frequencies_positive.
      subst d. lia.
Qed.

Lemma dummies_under_one_node_witness :
  consistentComparator codeUnitCompare /\
  2 <= 4 /\ lit "abcde" <> [] /\ (fuelFor (lit "abcde") 4 <= 9)%nat /\
  exists root x,
    generateMaryTree codeUnitCompare AppTsx 9
      (calculateFrequencies (lit "abcde")) 4 = Some (Some root) /\
    In x (subnodes root) /\
    forall y,
      In y (dummyNodes AppTsx
              (Z.to_nat
                 (calculateRequiredDummies
                    (Z.of_nat (length (calculateFrequencies (lit "abcde"))))
                    4))
              0) ->
      In y (children x).
Proof.
  split; [exact codeUnitCompare_consistent|].
  split; [lia|]. split; [discriminate|]. split; [vm_compute; lia|].
  apply (dummies_under_one_node codeUnitCompare AppTsx 9 (lit "abcde") 4);
    [exact codeUnitCompare_consistent | lia | discriminate
    | vm_compute; lia].
Defined.

(** ** The drawing of the tree *)

(** X20.  In the later copy of the program no node of a built tree is
    drawn as a dummy: a dummy leaf, named "z" and its number, is drawn
    like the leaf of a symbol, under its name; and for a text of two or
    more distinct symbols the root shows the number of symbols of the
    text. *)
Theorem no_node_drawn_as_dummy localeCompare fuel text m :
  2 <= m -> (2 <= length (calculateFrequencies text))%nat ->
  (fuelFor text m <= fuel)%nat ->
  exists root,
    generateMaryTree localeCompare Part000 fuel (calculateFrequencies text) m
      = Some (Some root) /\
    nodeLabel root = NumberLabel (Z.of_nat (length (stringIterator text))) /\
    (forall x, In x (subnodes root) -> nodeStyle x <> GrayDummy) /\
    (forall x i, In x (subnodes root) -> data x = dummyName Part000 i ->
                 nodeStyle x = IndigoLeaf /\
                 nodeLabel x = TextLabel (dummyName Part000 i)).
Proof.
  intros Hm Hlen Hfuel.
  assert (Hne : text <> []) by (intros ->; simpl in Hlen; lia).
  destruct (built_tree_shape localeCompare Part000 fuel text m Hm Hlen Hfuel)
    as (root & Hgen & Hwf & Hdata).
  destruct (built_tree_weights localeCompare Part000 fuel text m Hm Hne Hfuel)
    as (root' & Hgen' & Hfreq & _).
  rewrite Hgen in Hgen'. injection Hgen' as <-.
  exists root. split; [exact Hgen|].
  pose proof (wellFormed_subnodes Part000 m root Hwf) as Hall.
  rewrite Forall_forall in Hall.
  split; [|split].
  - pose proof (wellFormed_internal Part000 m root Hwf Hdata) as Hsz.
    unfold nodeLabel. unfold size in Hsz.
    destruct (Z.of_nat (length (children root)) =? 0) eqn:E;
      [apply Z.eqb_eq in E; lia|].
    rewrite Hfreq. reflexivity.
  - intros x Hx. specialize (Hall x Hx). unfold nodeStyle.
    inversion Hall as [c f Hs | i | kids Hsz Hk]; subst x;
      cbn [data children length].
    + destruct (startsWith c (lit "dummy")) eqn:E; [|discriminate].
      apply startsWith_length in E. apply symbol_length in Hs.
      simpl in E. lia.
    + discriminate.
    + unfold size in Hsz.
      destruct (Z.of_nat (length kids) =? 0) eqn:E;
        [apply Z.eqb_eq in E; lia | discriminate].
  - intros x i Hx Hd. specialize (Hall x Hx).
    destruct (wellFormed_dummy Part000 m x i Hall Hd) as [_ Hk].
    unfold nodeStyle, nodeLabel. rewrite Hk, Hd. split; reflexivity.
Qed.

Lemma no_node_drawn_as_dummy_witness :
  2 <= 3 /\ (2 <= length (calculateFrequencies (lit "abcd")))%nat /\
  (fuelFor (lit "abcd") 3 <= 7)%nat /\
  exists root,
    generateMaryTree codeUnitCompare Part000 7
      (calculateFrequencies (lit "abcd")) 3 = Some (Some root) /\
    nodeLabel root
      = NumberLabel (Z.of_nat (length (stringIterator (lit "abcd")))) /\
    (forall x, In x (subnodes root) -> nodeStyle x <> GrayDummy) /\
    (forall x i, In x (subnodes root) -> data x = dummyName Part000 i ->
                 nodeStyle x = IndigoLeaf /\
                 nodeLabel x = TextLabel (dummyName Part000 i)).
Proof.
  split; [lia|]. split; [vm_compute; lia|]. split; [vm_compute; lia|].
  apply (no_node_drawn_as_dummy codeUnitCompare 7 (lit "abcd") 3);
    [lia | vm_compute; lia | vm_compute; lia].
Defined.
